(** * SIU face recognition core: descriptor store, recognition log,
      matcher cache, classifier and model loader.

    Shallow embedding of [services/visionService.ts] and
    [hooks/useFaceSystem.ts] (the revision with the source list, the
    threshold parameter and the 1500 ms debounce), with the older
    revisions kept beside it where they differ.

    Conventions.
    - A JavaScript [number] holding a count, an index or a millisecond
      timestamp is a [Z].  A [number] holding a distance, a threshold, a
      coordinate or a vector entry is the rational it denotes, and every
      [+], [-], [*] and [/] of the source rounds its exact result to
      binary64 (to nearest, ties to even, with subnormals); comparisons,
      [Math.min], [Math.max], [Math.floor] and [Math.round] are exact,
      as they are on doubles; [new Float32Array(d)] rounds every entry
      to binary32.  NaN, the infinities and results beyond the largest
      value of a format are outside the model.
    - A React state updater [setX(prev => e)] is the function
      [fun prev => e].
    - The module-level [let] variables of the vision service are the
      fields of one record that every operation takes and returns. *)

From stdpp Require Import base list strings gmap.
From Stdlib Require Import ZArith QArith Qround Qminmax Qpower Lia Lqa.

Open Scope Z_scope.

(** ** Numbers of the host language *)

Module Number.

(** 2 to the power [e]. *)
Definition pow2 (e : Z) : Q := Qpower 2 e.

(** For [x > 0], the integer [k] with [2^k <= x < 2^(k+1)]. *)
Definition ilog2 (x : Q) : Z :=
  if Qle_bool 1 x then Z.log2 (Qfloor x)
  else - Z.log2_up (Qceiling (/ x)).

(** The nearest integer, the even one of two equally near. *)
Definition roundHalfEven (x : Q) : Z :=
  let f := Qfloor x in
  match (x - inject_Z f ?= 1 # 2)%Q with
  | Lt => f
  | Gt => f + 1
  | Eq => if Z.even f then f else f + 1
  end.

(** For [x > 0]: the nearest multiple of [2^e], where [e] leaves [prec]
    significant bits and is at least [emin]. *)
Definition roundPositive (prec emin : Z) (x : Q) : Q :=
  let e := Z.max emin (ilog2 x - prec + 1) in
  (inject_Z (roundHalfEven (x / pow2 e)) * pow2 e)%Q.

(** Rounding to the binary format with [prec] significant bits and
    least exponent [emin]. *)
Definition roundTo (prec emin : Z) (x : Q) : Q :=
  match (x ?= 0)%Q with
  | Eq => 0%Q
  | Gt => roundPositive prec emin x
  | Lt => (- roundPositive prec emin (- x))%Q
  end.

(** binary64, the format of a [number]. *)
Definition toDouble : Q -> Q := roundTo 53 (-1074).

(** binary32, the format of the entries of a [Float32Array]. *)
Definition toFloat32 : Q -> Q := roundTo 24 (-149).

(** The rationals that are numbers. *)
Definition isDouble (x : Q) : Prop := (toDouble x == x)%Q.

(** [a + b], [a - b], [a * b] and [a / b] on numbers. *)
Definition add (a b : Q) : Q := toDouble (a + b).

Definition sub (a b : Q) : Q := toDouble (a - b).

Definition mul (a b : Q) : Q := toDouble (a * b).

Definition div (a b : Q) : Q := toDouble (a / b).

(** [new Float32Array(d)] *)
Definition float32Array (d : list Q) : list Q := toFloat32 <$> d.

End Number.

(** ** types.ts *)

Definition Descriptor := list Q.

Record PersonProfile := mkProfile {
  id : string;
  name : string;
  images : list string;
  createdAt : Z;
  descriptors : list Descriptor
}.

Record RecognitionLog := mkLog {
  log_id : string;
  timestamp : Z;
  personName : string;
  confidence : Z;
  isUnknown : bool
}.

(** ** Array primitives of the host language *)

Module JsArray.

(** [Array.prototype.splice(start, deleteCount)]: where the deletion
    starts, for an array of length [len].  A negative [start] counts
    from the end and is clamped at 0; a [start] past the end is
    clamped at [len]. *)
Definition relativeStart (len start : Z) : Z :=
  if start <? 0 then Z.max (len + start) 0 else Z.min start len.

(** How many elements are really deleted. *)
Definition actualDeleteCount (len from deleteCount : Z) : Z :=
  Z.min (Z.max deleteCount 0) (len - from).

(** The array after [l.splice(start, deleteCount)]. *)
Definition splice {A} (start deleteCount : Z) (l : list A) : list A :=
  let len := Z.of_nat (length l) in
  let from := relativeStart len start in
  let n := actualDeleteCount len from deleteCount in
  take (Z.to_nat from) l ++ drop (Z.to_nat (from + n)) l.

(** [l.slice(0, n)] for a non-negative literal [n]. *)
Definition slice0 {A} (n : nat) (l : list A) : list A := take n l.

End JsArray.

(** ** hooks/useFaceSystem.ts *)

Module FaceSystem.

Import JsArray.

(** [addProfile]; [uuid] stands for [uuidv4()] and [now] for
    [Date.now()]. *)
Definition addProfile (uuid : string) (now : Z)
    (name : string) (image : string) (descriptor : option Descriptor)
    (prev : list PersonProfile) : list PersonProfile :=
  prev ++ [ {| id := uuid; name := name; images := [image];
               createdAt := now;
               descriptors := match descriptor with
                              | Some d => [d]
                              | None => []
                              end |} ].

Definition deleteProfile (pid : string) (prev : list PersonProfile)
    : list PersonProfile :=
  filter (fun p => id p ≠ pid) prev.

Definition addSampleToProfile (pid : string) (image : string)
    (descriptor : Descriptor) (prev : list PersonProfile)
    : list PersonProfile :=
  (fun p =>
     if String.eqb (id p) pid
     then {| id := id p; name := name p;
             images := images p ++ [image];
             createdAt := createdAt p;
             descriptors := descriptors p ++ [descriptor] |}
     else p) <$> prev.

(** The body applied to the profile whose id matches. *)
Definition removeSample (index : Z) (p : PersonProfile) : PersonProfile :=
  let newImages := splice index 1 (images p) in
  let newDescriptors := splice index 1 (descriptors p) in
  {| id := id p; name := name p; images := newImages;
     createdAt := createdAt p; descriptors := newDescriptors |}.

Definition removeSampleFromProfile (profileId : string) (index : Z)
    (prev : list PersonProfile) : list PersonProfile :=
  (fun p => if String.eqb (id p) profileId
            then removeSample index p else p) <$> prev.

(** The debounce test of [addLog], for a window of [window] ms. *)
Definition debounced (window : Z) (log : RecognitionLog)
    (prev : list RecognitionLog) : bool :=
  match prev with
  | [] => false
  | last :: _ =>
      String.eqb (personName last) (personName log)
      && (timestamp log - timestamp last <? window)
  end.

Definition addLogWithin (window : Z) (log : RecognitionLog)
    (prev : list RecognitionLog) : list RecognitionLog :=
  if debounced window log prev then prev
  else slice0 200 (log :: prev).

(** The current hook debounces within 1500 ms ... *)
Definition addLog := addLogWithin 1500.

(** ... the first revision of the hook within 1000 ms. *)
Definition addLog_1s := addLogWithin 1000.

(** [admit] of the Event Debouncer: whether [addLog] forwards the
    event. *)
Definition admits (window : Z) (log : RecognitionLog)
    (prev : list RecognitionLog) : bool :=
  negb (debounced window log prev).

(** The log after a stream of events, from the empty log that
    [useState<RecognitionLog[]>([])] starts with. *)
Definition logAfter (window : Z) (events : list RecognitionLog)
    : list RecognitionLog :=
  fold_left (fun prev log => addLogWithin window log prev) events [].

End FaceSystem.

(** ** The face-api.js objects the vision service builds and queries *)

Module FaceApi.

Record LabeledFaceDescriptors := mkLabeled {
  label : string;
  vectors : list Descriptor
}.

(** What [new faceapi.FaceMatcher(labeledDescriptors, threshold)]
    receives. *)
Record FaceMatcher := mkMatcher {
  labeledDescriptors : list LabeledFaceDescriptors;
  distanceThreshold : Q
}.

(** What [findBestMatch] returns: [bestMatch.label] and
    [bestMatch.distance]. *)
Record FaceMatch := mkMatch {
  match_label : string;
  distance : Q
}.

(** JavaScript [a < b] on numbers. *)
Definition Qltb (a b : Q) : bool :=
  (Qnum a * QDen b <? Qnum b * QDen a)%Z.

Section Matching.

(** The library's Euclidean distance between two descriptors; the
    library is not part of the sources, so it is a parameter. *)
Variable euclideanDistance : Descriptor -> Descriptor -> Q.

(** Modelled from the spec: the flatten step of the Matcher Cache
    (face-api.js itself is missing from the sources): "flatten
    every profile with >= 1 vector into a labeled vector set". *)
Definition flatten (m : FaceMatcher) : list (string * Descriptor) :=
  labeledDescriptors m ≫= (fun l => (fun v => (label l, v)) <$> vectors l).

Definition nearer (best curr : FaceMatch) : FaceMatch :=
  if Qltb (distance curr) (distance best) then curr else best.

Definition scan (query : Descriptor) (best : FaceMatch)
    (rest : list (string * Descriptor)) : FaceMatch :=
  fold_left
    (fun best lv =>
       nearer best (mkMatch (fst lv) (euclideanDistance query (snd lv))))
    rest best.

(** Modelled from the spec: [faceMatcher.findBestMatch] of
    face-api.js, missing from the sources: "compute the Euclidean
    distance from vector to every labeled vector in the handle; let
    d* be the minimum and label* its owning identity (ties broken by
    first-seen order during the flatten step)".  A handle without
    vectors is never built; the first clause only makes the function
    total. *)
Definition findBestMatch (m : FaceMatcher) (query : Descriptor)
    : FaceMatch :=
  match flatten m with
  | [] => mkMatch "unknown" 0
  | lv :: rest =>
      scan query (mkMatch (fst lv) (euclideanDistance query (snd lv)))
           rest
  end.

(** What the spec asks of the best match: [best] is the match for the
    entry of [seen] nearest to [query], the earliest one among
    equals. *)
Definition nearestIn (query : Descriptor)
    (seen : list (string * Descriptor)) (best : FaceMatch) : Prop :=
  exists (i : nat) lv,
    seen !! i = Some lv
    /\ best = mkMatch (fst lv) (euclideanDistance query (snd lv))
    /\ (forall (j : nat) lv', seen !! j = Some lv' ->
          (distance best <= euclideanDistance query (snd lv'))%Q)
    /\ (forall (j : nat) lv', (j < i)%nat -> seen !! j = Some lv' ->
          (distance best < euclideanDistance query (snd lv'))%Q).

End Matching.

(** An executable Euclidean distance, to run the classifier on examples.
    It is exact whenever the sum of the squared differences is the square
    of a rational, as for [3/10; 4/10] against the origin; otherwise
    numerator and denominator are rooted separately, rounding down. *)
Definition sumOfSquares (a b : Descriptor) : Q :=
  fold_left Qplus (zip_with (fun x y => (x - y) * (x - y))%Q a b) 0%Q.

Definition rationalRoot (q : Q) : Q :=
  let r := Qred q in Z.sqrt (Qnum r) # Pos.sqrt (Qden r).

Definition rationalDistance (a b : Descriptor) : Q :=
  rationalRoot (sumOfSquares a b).

End FaceApi.

(** ** services/visionService.ts *)

Module VisionService.

Import FaceApi.

(** A promise object is named by its position in the heap of promises. *)
Definition PromiseRef := nat.

(** SINGLETON STATE and PROMISE CACHE *)
Record State := mkState {
  isCriticalModelsLoaded : bool;
  isDemographicsLoaded : bool;
  faceMatcher : option FaceMatcher;
  lastDescriptorCount : Z;
  loadingPromise : option PromiseRef
}.

Definition initial : State :=
  {| isCriticalModelsLoaded := false;
     isDemographicsLoaded := false;
     faceMatcher := None;
     lastDescriptorCount := -1;
     loadingPromise := None |}.

Definition MODEL_URLS : list string :=
  [ "https://cdn.jsdelivr.net/gh/cgarciagl/face-api.js@0.22.2/weights";
    "https://justadudewhohacks.github.io/face-api.js/models";
    "https://cdn.jsdelivr.net/gh/justadudewhohacks/face-api.js@master/weights" ].

Definition TIMEOUT_MS : Z := 60000.

(** *** Matcher cache *)

(** [profiles.reduce((acc, p) => acc + p.descriptors.length, 0)] *)
Definition descriptorCount (profiles : list PersonProfile) : Z :=
  fold_left (fun acc p => acc + Z.of_nat (length (descriptors p)))
            profiles 0.

(** Lines 161-164: the labeled set pushed for one profile. *)
Definition labelProfile (p : PersonProfile) : LabeledFaceDescriptors :=
  let vectors := Number.float32Array <$> descriptors p in
  mkLabeled (name p) vectors.

(** The [forEach] that fills [labeledDescriptors]. *)
Definition labelProfiles (profiles : list PersonProfile)
    : list LabeledFaceDescriptors :=
  fold_left
    (fun acc p =>
       if (0 <? Z.of_nat (length (descriptors p)))
       then acc ++ [labelProfile p]
       else acc)
    profiles [].

(** Lines 158-174: the rebuild. *)
Definition rebuild (st : State) (profiles : list PersonProfile)
    (threshold : Q) : State :=
  let labeled := labelProfiles profiles in
  {| isCriticalModelsLoaded := isCriticalModelsLoaded st;
     isDemographicsLoaded := isDemographicsLoaded st;
     faceMatcher :=
       if (0 <? Z.of_nat (length labeled))
       then Some (mkMatcher labeled threshold)
       else None;
     lastDescriptorCount := descriptorCount profiles;
     loadingPromise := loadingPromise st |}.

(** [faceapi] is whether the global of that name is usable. *)
Definition updateFaceMatcher (faceapi : bool) (st : State)
    (profiles : list PersonProfile) (threshold : Q) : State :=
  if negb faceapi || negb (isCriticalModelsLoaded st) then st
  else
    let currentDescriptorCount := descriptorCount profiles in
    if (currentDescriptorCount =? lastDescriptorCount st)
       && bool_decide (is_Some (faceMatcher st))
    then st
    else rebuild st profiles threshold.

(** *** Classifier *)

Record Video := mkVideo {
  paused : bool;
  ended : bool;
  videoWidth : Q;
  videoHeight : Q
}.

Record Box := mkBox { x : Q; y : Q; width : Q; height : Q }.

(** One element of the array that the detection task resolves to.
    [d_age] is [None] when the task ran without the demographic nets;
    [d_expressions] is the value of [d.expressions.asSortedArray()]. *)
Record Detection := mkDetection {
  descriptor : Descriptor;
  box : Box;
  d_age : option Q;
  d_gender : string;
  d_expressions : list (string * Q)
}.

Record FaceDetection := mkFaceDetection {
  identified : bool;
  det_name : string;
  det_confidence : Z;
  box_2d : list Q;
  age : option Z;
  gender : option string;
  expressions : option (list (string * Q))
}.

(** [Math.round] *)
Definition round (q : Q) : Z := Qfloor (q + (1 # 2))%Q.

(** [v || fallback] on a number. *)
Definition orElse (v fallback : Q) : Q :=
  if Qeq_bool v 0 then fallback else v.

Section Classify.

Variable euclideanDistance : Descriptor -> Descriptor -> Q.

(** Lines 205-219: name, confidence and identified for one face. *)
Definition classify (faceMatcher : option FaceMatcher) (threshold : Q)
    (query : Descriptor) : bool * string * Z :=
  match faceMatcher with
  | Some m =>
      let bestMatch := findBestMatch euclideanDistance m query in
      if Qltb (distance bestMatch) threshold then
        let score :=
          Qmax 0 (Number.sub 1 (Number.div (distance bestMatch) threshold)) in
        (true, match_label bestMatch, Qfloor (Number.mul score 100))
      else
        (false, "Unknown",
         Qfloor (Number.mul (Number.sub 1 (Qmin 1 (distance bestMatch)))
                            100))
  | None => (false, "Unknown", 0)
  end.

(** The callback of [detections.map]. *)
Definition describe (st : State) (video : Video) (threshold : Q)
    (d : Detection) : FaceDetection :=
  let '(identified, name, confidence) :=
    classify (faceMatcher st) threshold (descriptor d) in
  let vW := orElse (videoWidth video) 640 in
  let vH := orElse (videoHeight video) 480 in
  let scaleX := if Qltb 0 vW then Number.div 1000 vW else 1%Q in
  let scaleY := if Qltb 0 vH then Number.div 1000 vH else 1%Q in
  let demographics :=
    isDemographicsLoaded st
    && match d_age d with
       | Some a => negb (Qeq_bool a 0)
       | None => false
       end in
  {| identified := identified;
     det_name := name;
     det_confidence := confidence;
     box_2d :=
       [ Number.mul (y (box d)) scaleY;
         Number.mul (x (box d)) scaleX;
         Number.mul (Number.add (y (box d)) (height (box d))) scaleY;
         Number.mul (Number.add (x (box d)) (width (box d))) scaleX ];
     age := if demographics then round <$> d_age d else None;
     gender := if demographics then Some (d_gender d) else None;
     expressions :=
       if demographics then Some (d_expressions d) else None |}.

(** The literal [0.55]. *)
Definition DEFAULT_THRESHOLD : Q := Number.toDouble (55 # 100).

(** [detectFacesReal], from the point where the detection task has
    resolved to [detections]; [video = None] is a null element and
    [threshold = None] an omitted argument.  The result is the new
    module state and the returned array. *)
Definition detectFacesReal (faceapi : bool) (st : State)
    (video : option Video) (detections : list Detection)
    (profiles : list PersonProfile) (threshold : option Q)
    : State * list FaceDetection :=
  let threshold := default DEFAULT_THRESHOLD threshold in
  match video with
  | None => (st, [])
  | Some v =>
      if negb (isCriticalModelsLoaded st) || paused v || ended v
         || negb faceapi
      then (st, [])
      else
        match detections with
        | [] => (st, [])
        | _ =>
            let st' := updateFaceMatcher faceapi st profiles threshold in
            (st', describe st' v threshold <$> detections)
        end
  end.

End Classify.

(** *** Model loader *)

(** The state of a [Promise<boolean>]. *)
Inductive Settled := Pending | Fulfilled (value : bool).

(** How the awaited [withTimeout(TIMEOUT_MS, Promise.all([...]))] of one
    source ends: all three nets loaded, one of them rejected, or the
    timer fired first. *)
Inductive Outcome := Loaded | Failed | TimedOut.

(** A suspended run of the async body of [loadModels]: it awaits the
    critical models from [awaiting]; [remaining] are the sources the
    [for] loop has not reached yet. *)
Record Task := mkTask {
  awaiting : string;
  remaining : list string
}.

(** The module state together with what the event loop holds. *)
Record Runtime := mkRuntime {
  faceapiDefined : bool;            (* typeof faceapi !== 'undefined' *)
  vars : State;
  promises : list Settled;          (* every promise made so far *)
  tasks : gmap PromiseRef Task;     (* suspended bodies, by their promise *)
  background : list string;         (* loadDemographicsBackground(url) in flight *)
  attempts : list string            (* sources asked for the critical models *)
}.

Definition boot (faceapi : bool) : Runtime :=
  {| faceapiDefined := faceapi; vars := initial; promises := [];
     tasks := ∅; background := []; attempts := [] |}.

Definition withVars (f : State -> State) (rt : Runtime) : Runtime :=
  {| faceapiDefined := faceapiDefined rt; vars := f (vars rt);
     promises := promises rt; tasks := tasks rt;
     background := background rt; attempts := attempts rt |}.

Definition setLoadingPromise (v : option PromiseRef) (st : State) : State :=
  {| isCriticalModelsLoaded := isCriticalModelsLoaded st;
     isDemographicsLoaded := isDemographicsLoaded st;
     faceMatcher := faceMatcher st;
     lastDescriptorCount := lastDescriptorCount st;
     loadingPromise := v |}.

Definition setCriticalModelsLoaded (v : bool) (st : State) : State :=
  {| isCriticalModelsLoaded := v;
     isDemographicsLoaded := isDemographicsLoaded st;
     faceMatcher := faceMatcher st;
     lastDescriptorCount := lastDescriptorCount st;
     loadingPromise := loadingPromise st |}.

Definition setDemographicsLoaded (v : bool) (st : State) : State :=
  {| isCriticalModelsLoaded := isCriticalModelsLoaded st;
     isDemographicsLoaded := v;
     faceMatcher := faceMatcher st;
     lastDescriptorCount := lastDescriptorCount st;
     loadingPromise := loadingPromise st |}.

(** [Promise.resolve(value)]: a new promise, already fulfilled. *)
Definition resolved (value : bool) (rt : Runtime) : Runtime * PromiseRef :=
  ({| faceapiDefined := faceapiDefined rt; vars := vars rt;
      promises := promises rt ++ [Fulfilled value]; tasks := tasks rt;
      background := background rt; attempts := attempts rt |},
   length (promises rt)).

(** The promise [p] of an async body that has returned [value]. *)
Definition fulfil (p : PromiseRef) (value : bool) (rt : Runtime) : Runtime :=
  {| faceapiDefined := faceapiDefined rt; vars := vars rt;
     promises := <[p := Fulfilled value]> (promises rt);
     tasks := delete p (tasks rt);
     background := background rt; attempts := attempts rt |}.

(** The [for] loop of the body of promise [p], entered with [urls]
    left: it asks the first of them for the critical models and
    suspends at the [await] ([loadFromUri] hands back a promise, so a
    failure only arrives after the suspension); with none left it runs
    lines 97-99. *)
Definition attempt (p : PromiseRef) (urls : list string) (rt : Runtime)
    : Runtime :=
  match urls with
  | url :: rest =>
      {| faceapiDefined := faceapiDefined rt; vars := vars rt;
         promises := promises rt;
         tasks := <[p := mkTask url rest]> (tasks rt);
         background := background rt;
         attempts := attempts rt ++ [url] |}
  | [] => fulfil p false (withVars (setLoadingPromise None) rt)
  end.

(** [loadModels()] over the source list [urls]: the new runtime and the
    promise handed to the caller. *)
Definition loadModelsFrom (urls : list string) (rt : Runtime)
    : Runtime * PromiseRef :=
  if negb (faceapiDefined rt) then resolved false rt
  else if isCriticalModelsLoaded (vars rt) then resolved true rt
  else
    match loadingPromise (vars rt) with
    | Some p => (rt, p)
    | None =>
        let p := length (promises rt) in
        let started :=
          attempt p urls
            {| faceapiDefined := faceapiDefined rt; vars := vars rt;
               promises := promises rt ++ [Pending]; tasks := tasks rt;
               background := background rt; attempts := attempts rt |} in
        (withVars (setLoadingPromise (Some p)) started, p)
    end.

Definition loadModels : Runtime -> Runtime * PromiseRef :=
  loadModelsFrom MODEL_URLS.

(** The body of promise [p] resumes after its [await] ended with [o]. *)
Definition settle (p : PromiseRef) (o : Outcome) (rt : Runtime) : Runtime :=
  match tasks rt !! p with
  | None => rt
  | Some t =>
      match o with
      | Loaded =>
          let rt := withVars (setCriticalModelsLoaded true) rt in
          fulfil p true
            {| faceapiDefined := faceapiDefined rt; vars := vars rt;
               promises := promises rt; tasks := tasks rt;
               background := background rt ++ [awaiting t];
               attempts := attempts rt |}
      | Failed | TimedOut => attempt p (remaining t) rt
      end
  end.

(** The oldest [loadDemographicsBackground] in flight ends: both extra
    nets loaded ([ok]) or one of them rejected. *)
Definition settleDemographics (ok : bool) (rt : Runtime) : Runtime :=
  match background rt with
  | [] => rt
  | _ :: rest =>
      let rt := withVars (setDemographicsLoaded ok) rt in
      {| faceapiDefined := faceapiDefined rt; vars := vars rt;
         promises := promises rt; tasks := tasks rt;
         background := rest; attempts := attempts rt |}
  end.

(** What can happen between two turns of the event loop. *)
Inductive Event :=
| CallLoadModels
| Settle (p : PromiseRef) (o : Outcome)
| SettleDemographics (ok : bool)
| Detect (video : option Video) (detections : list Detection)
         (profiles : list PersonProfile) (threshold : option Q).

Section Run.

Variable euclideanDistance : Descriptor -> Descriptor -> Q.
Variable urls : list string.

Definition step (rt : Runtime) (e : Event) : Runtime :=
  match e with
  | CallLoadModels => fst (loadModelsFrom urls rt)
  | Settle p o => settle p o rt
  | SettleDemographics ok => settleDemographics ok rt
  | Detect video detections profiles threshold =>
      withVars
        (fun st =>
           fst (detectFacesReal euclideanDistance (faceapiDefined rt) st
                  video detections profiles threshold))
        rt
  end.

Definition run (rt : Runtime) (events : list Event) : Runtime :=
  fold_left step events rt.

(** The runtimes the page can be in. *)
Definition reachable (rt : Runtime) : Prop :=
  exists faceapi events, rt = run (boot faceapi) events.

End Run.

End VisionService.

(** ** services/visionService.ts, first revision *)

Module VisionServiceV1.

Import FaceApi.

(** The literal [0.55]. *)
Definition DISTANCE_THRESHOLD : Q := Number.toDouble (55 # 100).

(** Lines 149-173 of the first revision, from the result of
    [findBestMatch] on ([None] where [faceMatcher] is null): the match is
    accepted by its label, against the fixed threshold, and the rejected
    branch has no [Math.min]. *)
Definition classify (bestMatch : option FaceMatch) : bool * string * Z :=
  match bestMatch with
  | Some bestMatch =>
      if negb (String.eqb (match_label bestMatch) "unknown") then
        let score :=
          Qmax 0 (Number.sub 1 (Number.div (distance bestMatch)
                                           DISTANCE_THRESHOLD)) in
        (true, match_label bestMatch, Qfloor (Number.mul score 100))
      else
        (false, "Unknown",
         Qfloor (Number.mul (Number.sub 1 (distance bestMatch)) 100))
  | None => (false, "Unknown", 0)
  end.

End VisionServiceV1.

(** ** Consistency of the module state *)

(** The cached handle fits the recorded count: a handle holds at least
    one labeled vector and was recorded with a positive count; without a
    handle the recorded count is 0, or still the initial -1. *)
Definition cacheConsistent (st : VisionService.State) : Prop :=
  match VisionService.faceMatcher st with
  | Some m =>
      0 < VisionService.lastDescriptorCount st /\ FaceApi.flatten m <> []
  | None =>
      VisionService.lastDescriptorCount st = 0
      \/ VisionService.lastDescriptorCount st = -1
  end.

(** The flags fit the event loop: the critical flag is only set where
    [faceapi] exists, and a suspended body of [loadModels] is the one
    whose promise is cached, still pending, with the flag not yet set. *)
Definition loaderConsistent (rt : VisionService.Runtime) : Prop :=
  (VisionService.isCriticalModelsLoaded (VisionService.vars rt) = true ->
   VisionService.faceapiDefined rt = true)
  /\ forall p t,
       VisionService.tasks rt !! p = Some t ->
       VisionService.faceapiDefined rt = true
       /\ VisionService.isCriticalModelsLoaded (VisionService.vars rt) = false
       /\ VisionService.loadingPromise (VisionService.vars rt) = Some p
       /\ VisionService.promises rt !! p = Some VisionService.Pending.

Definition consistent (rt : VisionService.Runtime) : Prop :=
  loaderConsistent rt /\ cacheConsistent (VisionService.vars rt).

(** ** services/visionService.ts: [withTimeout] *)

Module Timeout.

(** Why the returned promise was rejected: by the timer, with
    [new Error(`Timeout after ${ms}ms`)], or with the reason of the
    wrapped promise. *)
Inductive Reason (E : Type) :=
| TimeoutAfter (ms : Z)
| Inner (reason : E).

Inductive Settlement (A E : Type) :=
| Resolved (value : A)
| Rejected (reason : Reason E).

Arguments TimeoutAfter {E} ms.
Arguments Inner {E} reason.
Arguments Resolved {A E} value.
Arguments Rejected {A E} reason.

(** The promise that [withTimeout] returns, and whether its timer is
    still set. *)
Record Race (A E : Type) := mkRace {
  settled : option (Settlement A E);
  timerSet : bool
}.

Arguments mkRace {A E} settled timerSet.
Arguments settled {A E} r.
Arguments timerSet {A E} r.

(** What can reach the promise: the timer fires, or the wrapped promise
    is fulfilled or rejected. *)
Inductive Signal (A E : Type) :=
| TimerFires
| InnerFulfilled (value : A)
| InnerRejected (reason : E).

Arguments TimerFires {A E}.
Arguments InnerFulfilled {A E} value.
Arguments InnerRejected {A E} reason.

(** Right after the call: pending, timer set. *)
Definition withTimeout {A E} : Race A E :=
  {| settled := None; timerSet := true |}.

(** [resolve] and [reject] of a promise act once only. *)
Definition settleWith {A E} (s : Settlement A E) (r : Race A E)
    : option (Settlement A E) :=
  match settled r with
  | None => Some s
  | Some first => Some first
  end.

(** The three callbacks of lines 38-49; a cleared or fired timer does
    not fire. *)
Definition signal {A E} (ms : Z) (r : Race A E) (s : Signal A E)
    : Race A E :=
  match s with
  | TimerFires =>
      if timerSet r
      then {| settled := settleWith (Rejected (TimeoutAfter ms)) r;
              timerSet := false |}
      else r
  | InnerFulfilled value =>
      {| settled := settleWith (Resolved value) r; timerSet := false |}
  | InnerRejected reason =>
      {| settled := settleWith (Rejected (Inner reason)) r;
         timerSet := false |}
  end.

End Timeout.

(** ** components/LiveMonitor.tsx: logging the results of a frame *)

Module LiveMonitor.

Import VisionService.

(** Line 88: "only log if we have a solid ID or it's a clear face". *)
Definition worthLogging (det : FaceDetection) : bool :=
  identified det || (50 <? det_confidence det).

(** Lines 89-95; [uuid] stands for [uuidv4()] and [now] for
    [Date.now()]. *)
Definition newLog (uuid : string) (now : Z) (det : FaceDetection)
    : RecognitionLog :=
  {| log_id := uuid; timestamp := now; personName := det_name det;
     confidence := det_confidence det;
     isUnknown := negb (identified det) |}.

(** The entries that [results.forEach] hands to [onLogEntry], in order;
    each result comes with the id and the time it would be logged
    with. *)
Definition frameLogs (results : list (string * Z * FaceDetection))
    : list RecognitionLog :=
  (fun r => newLog (fst (fst r)) (snd (fst r)) (snd r))
  <$> filter (fun r => worthLogging (snd r) = true) results.

End LiveMonitor.

(** ** Model loader: further invariants *)

Section LoaderInvariants.

Import VisionService.

(** The optional tier hangs on the critical one: before the critical
    models are loaded no optional fetch is in flight and the
    demographic flag is unset; there is never more than one fetch. *)
Definition optionalAfterCritical (rt : Runtime) : Prop :=
  (isCriticalModelsLoaded (vars rt) = false ->
   background rt = [] /\ isDemographicsLoaded (vars rt) = false)
  /\ (length (background rt) <= 1)%nat.

(** The runtime of a page on which [faceapi] is missing. *)
Definition inert (rt : Runtime) : Prop :=
  faceapiDefined rt = false /\ vars rt = initial /\ tasks rt = ∅
  /\ background rt = [] /\ attempts rt = []
  /\ Forall (fun s => s = Fulfilled false) (promises rt).

End LoaderInvariants.

(** ** Recognition log: neighbours *)

(** No two neighbours of the log carry the same name less than [window]
    ms apart (the log is newest first). *)
Definition spaced (window : Z) (logs : list RecognitionLog) : Prop :=
  forall (i : nat) newer older,
    logs !! i = Some newer ->
    logs !! S i = Some older ->
    personName older = personName newer ->
    window <= timestamp newer - timestamp older.

(** ** Descriptor store: samples *)

(** A profile whose images and descriptors pair up one to one. *)
Definition aligned (p : PersonProfile) : Prop :=
  length (images p) = length (descriptors p).

(** The samples of a profile: each image with the descriptor stored at
    the same position. *)
Definition samples (p : PersonProfile) : list (string * Descriptor) :=
  zip (images p) (descriptors p).

(** * Properties *)

(** ** Numbers: rounding is monotone *)

Section Rounding.

Import Number.
Local Open Scope Q_scope.

Lemma pow2_pos e : 0 < pow2 e.
Proof. apply Qpower_0_lt. reflexivity. Qed.

Lemma pow2_le a b : (a <= b)%Z -> pow2 a <= pow2 b.
Proof. intros H. apply Qpower_le_compat_l; [exact H | discriminate]. Qed.

Lemma pow2_add a b : pow2 (a + b) == pow2 a * pow2 b.
Proof. apply Qpower_plus. discriminate. Qed.

Lemma pow2_inject n : (0 <= n)%Z -> inject_Z (2 ^ n) == pow2 n.
Proof. intros H. unfold pow2. by rewrite Zpower_Qpower. Qed.

Lemma pow2_opp n : pow2 (- n) == / pow2 n.
Proof. apply Qpower_opp. Qed.

Lemma ilog2_spec x :
  0 < x -> pow2 (ilog2 x) <= x /\ x < pow2 (ilog2 x + 1).
Proof.
  intros Hx. unfold ilog2.
  destruct (Qle_bool 1 x) eqn:Hone.
  - apply Qle_bool_iff in Hone.
    assert (Hf : (1 <= Qfloor x)%Z).
    { apply (Qfloor_resp_le 1 x Hone). }
    destruct (Z.log2_spec (Qfloor x)) as [Hlo Hhi]; [lia|].
    pose proof (Z.log2_nonneg (Qfloor x)) as Hnn.
    split.
    + rewrite <- pow2_inject by exact Hnn.
      apply Qle_trans with (inject_Z (Qfloor x)); [|apply Qfloor_le].
      by rewrite <- Zle_Qle.
    + rewrite <- pow2_inject by lia.
      apply Qlt_le_trans with (inject_Z (Qfloor x + 1)); [apply Qlt_floor|].
      rewrite <- Zle_Qle. rewrite <- Z.add_1_r in Hhi. lia.
  - assert (Hlt : x < 1).
    { apply Qnot_le_lt. intros H. apply Qle_bool_iff in H. congruence. }
    assert (Hinv : 1 < / x).
    { apply Qlt_shift_inv_l; [exact Hx | lra]. }
    assert (Hc : (1 < Qceiling (/ x))%Z).
    { rewrite Zlt_Qlt. eapply Qlt_le_trans; [exact Hinv | apply Qle_ceiling]. }
    destruct (Z.log2_up_spec (Qceiling (/ x)) Hc) as [Hlo Hhi].
    pose proof (Z.log2_up_nonneg (Qceiling (/ x))) as Hnn.
    set (k := Z.log2_up (Qceiling (/ x))) in *.
    assert (Hk : (0 < k)%Z).
    { destruct (Z.eq_dec k 0) as [H0|]; [|lia].
      rewrite H0 in Hhi. simpl in Hhi. lia. }
    split.
    + rewrite pow2_opp. apply Qle_shift_inv_r; [apply pow2_pos|].
      assert (Hup : / x <= pow2 k).
      { rewrite <- pow2_inject by exact Hnn.
        eapply Qle_trans; [apply Qle_ceiling|]. by rewrite <- Zle_Qle. }
      apply (Qmult_le_compat_r _ _ x) in Hup; [|lra].
      rewrite Qmult_comm, Qmult_inv_r in Hup by lra.
      by rewrite Qmult_comm.
    + replace (- k + 1)%Z with (- (k - 1))%Z by lia.
      rewrite pow2_opp.
      assert (Hdown : pow2 (k - 1) < / x).
      { rewrite <- pow2_inject by lia.
        apply Qle_lt_trans with (inject_Z (Qceiling (/ x) - 1));
          [|apply Qceiling_lt].
        rewrite <- Zle_Qle. replace (Z.pred k) with (k - 1)%Z in Hlo by lia.
        lia. }
      apply Qlt_shift_inv_l; [apply pow2_pos|].
      apply (Qmult_lt_compat_r _ _ x) in Hdown; [|exact Hx].
      rewrite (Qmult_comm (/ x)), Qmult_inv_r in Hdown by lra.
      by rewrite Qmult_comm.
Qed.

Lemma ilog2_monotone x y : 0 < x -> x <= y -> (ilog2 x <= ilog2 y)%Z.
Proof.
  intros Hx Hxy.
  destruct (ilog2_spec x Hx) as [Hlo _].
  destruct (ilog2_spec y) as [_ Hhi]; [lra|].
  destruct (Z.le_gt_cases (ilog2 x) (ilog2 y)) as [|Hgt]; [done|].
  assert (pow2 (ilog2 y + 1) <= pow2 (ilog2 x)) by (apply pow2_le; lia).
  lra.
Qed.

Lemma roundHalfEven_range x :
  (Qfloor x <= roundHalfEven x <= Qfloor x + 1)%Z.
Proof.
  unfold roundHalfEven.
  destruct (x - inject_Z (Qfloor x) ?= 1 # 2); [|lia..].
  destruct (Z.even (Qfloor x)); lia.
Qed.

Lemma roundHalfEven_integer (k : Z) : roundHalfEven (inject_Z k) = k.
Proof.
  unfold roundHalfEven. rewrite Qfloor_Z.
  assert (H : (inject_Z k - inject_Z k ?= 1 # 2) = Lt).
  { apply (proj1 (Qlt_alt _ _)). lra. }
  by rewrite H.
Qed.

Lemma roundHalfEven_monotone x y :
  x <= y -> (roundHalfEven x <= roundHalfEven y)%Z.
Proof.
  intros Hxy.
  pose proof (Qfloor_resp_le x y Hxy) as Hf.
  pose proof (roundHalfEven_range x) as Hx.
  pose proof (roundHalfEven_range y) as Hy.
  destruct (Z.eq_dec (Qfloor x) (Qfloor y)) as [Heq|]; [|lia].
  unfold roundHalfEven in *. rewrite <- Heq in *.
  destruct (Qcompare_spec (x - inject_Z (Qfloor x)) (1 # 2)) as [Ex|Ex|Ex];
    destruct (Qcompare_spec (y - inject_Z (Qfloor x)) (1 # 2)) as [Ey|Ey|Ey];
    try lia; try lra;
    destruct (Z.even (Qfloor x)); lia.
Qed.

Lemma roundHalfEven_ge (k : Z) x : inject_Z k <= x -> (k <= roundHalfEven x)%Z.
Proof.
  intros H. rewrite <- (roundHalfEven_integer k).
  by apply roundHalfEven_monotone.
Qed.

Lemma roundHalfEven_le (k : Z) x : x <= inject_Z k -> (roundHalfEven x <= k)%Z.
Proof.
  intros H. rewrite <- (roundHalfEven_integer k).
  by apply roundHalfEven_monotone.
Qed.

Lemma roundHalfEven_upper x : inject_Z (roundHalfEven x) <= x + (1 # 2).
Proof.
  pose proof (Qfloor_le x) as Hf.
  unfold roundHalfEven.
  destruct (Qcompare_spec (x - inject_Z (Qfloor x)) (1 # 2)) as [E|E|E].
  - destruct (Z.even (Qfloor x)); [lra|].
    rewrite inject_Z_plus. change (inject_Z 1) with 1. lra.
  - lra.
  - rewrite inject_Z_plus. change (inject_Z 1) with 1. lra.
Qed.

Section Format.

Variables prec emin : Z.
Hypothesis prec_positive : (1 <= prec)%Z.

Lemma roundPositive_nonneg x : 0 < x -> 0 <= roundPositive prec emin x.
Proof.
  intros Hx. unfold roundPositive.
  set (e := Z.max emin (ilog2 x - prec + 1)).
  apply Qmult_le_0_compat; [|apply Qlt_le_weak, pow2_pos].
  change 0 with (inject_Z 0). rewrite <- Zle_Qle.
  apply roundHalfEven_ge. apply Qle_shift_div_l; [apply pow2_pos|].
  change (inject_Z 0) with 0. lra.
Qed.

Lemma roundPositive_monotone x y :
  0 < x -> x <= y -> roundPositive prec emin x <= roundPositive prec emin y.
Proof.
  intros Hx Hxy. assert (Hy : 0 < y) by lra.
  pose proof (ilog2_monotone x y Hx Hxy) as Hlog.
  unfold roundPositive.
  set (ex := Z.max emin (ilog2 x - prec + 1)).
  set (ey := Z.max emin (ilog2 y - prec + 1)).
  assert (Hexy : (ex <= ey)%Z) by lia.
  destruct (Z.eq_dec ex ey) as [Heq|Hne].
  - rewrite <- Heq. apply Qmult_le_compat_r; [|apply Qlt_le_weak, pow2_pos].
    rewrite <- Zle_Qle. apply roundHalfEven_monotone.
    apply Qmult_le_compat_r; [exact Hxy|].
    apply Qlt_le_weak, Qinv_lt_0_compat, pow2_pos.
  - assert (Hey : ey = (ilog2 y - prec + 1)%Z) by lia.
    assert (Hlx : (ilog2 x + 1 <= ex + prec)%Z) by lia.
    destruct (ilog2_spec x Hx) as [_ Hxhi].
    destruct (ilog2_spec y Hy) as [Hylo _].
    apply Qle_trans with (pow2 (ex + prec)).
    + rewrite Z.add_comm, pow2_add.
      apply Qmult_le_compat_r; [|apply Qlt_le_weak, pow2_pos].
      pose proof (pow2_inject prec ltac:(lia)) as Hp.
      rewrite <- Hp. rewrite <- Zle_Qle.
      apply roundHalfEven_le. rewrite Hp.
      apply Qle_shift_div_r; [apply pow2_pos|].
      rewrite <- pow2_add.
      apply Qle_trans with (pow2 (ilog2 x + 1)); [lra|].
      apply pow2_le. lia.
    + apply Qle_trans with (pow2 (prec - 1 + ey)); [apply pow2_le; lia|].
      rewrite pow2_add.
      apply Qmult_le_compat_r; [|apply Qlt_le_weak, pow2_pos].
      pose proof (pow2_inject (prec - 1) ltac:(lia)) as Hp.
      rewrite <- Hp. rewrite <- Zle_Qle.
      apply roundHalfEven_ge. rewrite Hp.
      apply Qle_shift_div_l; [apply pow2_pos|].
      rewrite <- pow2_add.
      replace (prec - 1 + ey)%Z with (ilog2 y) by lia. exact Hylo.
Qed.

(** In the normal range the rounded value exceeds the exact one by at
    most half a unit in the last place. *)
Lemma roundPositive_upper x :
  0 < x ->
  (emin <= ilog2 x - prec + 1)%Z ->
  roundPositive prec emin x <= x * (1 + pow2 (- prec)).
Proof.
  intros Hx Hnormal. unfold roundPositive.
  rewrite Z.max_r by exact Hnormal.
  set (e := (ilog2 x - prec + 1)%Z).
  pose proof (pow2_pos e) as He.
  destruct (ilog2_spec x Hx) as [Hlo _].
  apply Qle_trans with ((x / pow2 e + (1 # 2)) * pow2 e).
  - apply Qmult_le_compat_r; [apply roundHalfEven_upper | lra].
  - assert (Hhalf : (1 # 2) * pow2 e == pow2 (ilog2 x) * pow2 (- prec)).
    { rewrite <- pow2_add.
      replace (ilog2 x + - prec)%Z with (-1 + e)%Z by lia.
      rewrite pow2_add. reflexivity. }
    assert (Hexact : x / pow2 e * pow2 e == x) by (field; lra).
    pose proof (pow2_pos (- prec)) as Hp.
    assert (pow2 (ilog2 x) * pow2 (- prec) <= x * pow2 (- prec))
      by (apply Qmult_le_compat_r; lra).
    lra.
Qed.

Lemma roundTo_zero : roundTo prec emin 0 = 0.
Proof. reflexivity. Qed.

Lemma roundTo_monotone x y :
  x <= y -> roundTo prec emin x <= roundTo prec emin y.
Proof.
  intros Hxy. unfold roundTo.
  destruct (Qcompare_spec x 0) as [Ex|Ex|Ex];
    destruct (Qcompare_spec y 0) as [Ey|Ey|Ey]; try lra.
  - apply roundPositive_nonneg. exact Ey.
  - assert (0 <= roundPositive prec emin (- x))
      by (apply roundPositive_nonneg; lra).
    lra.
  - assert (roundPositive prec emin (- y) <= roundPositive prec emin (- x))
      by (apply roundPositive_monotone; lra).
    lra.
  - assert (0 <= roundPositive prec emin (- x))
      by (apply roundPositive_nonneg; lra).
    assert (0 <= roundPositive prec emin y)
      by (apply roundPositive_nonneg; lra).
    lra.
  - by apply roundPositive_monotone.
Qed.

Lemma roundTo_proper x y :
  x == y -> roundTo prec emin x == roundTo prec emin y.
Proof.
  intros Hxy. apply Qle_antisym; apply roundTo_monotone; lra.
Qed.

Lemma roundTo_upper x :
  pow2 (emin + prec - 1) <= x ->
  roundTo prec emin x <= x * (1 + pow2 (- prec)).
Proof.
  intros Hx. pose proof (pow2_pos (emin + prec - 1)) as Hpos.
  assert (Hx0 : 0 < x) by lra.
  unfold roundTo. destruct (Qcompare_spec x 0) as [E|E|E]; try lra.
  apply roundPositive_upper; [exact Hx0|].
  destruct (ilog2_spec x Hx0) as [_ Hhi].
  destruct (Z.le_gt_cases (emin + prec - 1) (ilog2 x)) as [|Hgt]; [lia|].
  assert (pow2 (ilog2 x + 1) <= pow2 (emin + prec - 1))
    by (apply pow2_le; lia).
  lra.
Qed.

End Format.

Lemma toDouble_monotone x y : x <= y -> toDouble x <= toDouble y.
Proof. apply roundTo_monotone. lia. Qed.

Lemma toDouble_proper x y : x == y -> toDouble x == toDouble y.
Proof. apply roundTo_proper. lia. Qed.

Lemma toDouble_upper x :
  pow2 (-1022) <= x -> toDouble x <= x * (1 + pow2 (-53)).
Proof. apply (roundTo_upper 53 (-1074)). Qed.

Lemma toFloat32_monotone x y : x <= y -> toFloat32 x <= toFloat32 y.
Proof. apply roundTo_monotone. lia. Qed.

Lemma toDouble_0 : toDouble 0 == 0.
Proof. reflexivity. Qed.

Lemma toDouble_1 : toDouble 1 == 1.
Proof. vm_compute. reflexivity. Qed.

Lemma toDouble_half : toDouble (1 # 2) == 1 # 2.
Proof. vm_compute. reflexivity. Qed.

Lemma toDouble_50 : toDouble 50 == 50.
Proof. vm_compute. reflexivity. Qed.

Lemma toDouble_100 : toDouble 100 == 100.
Proof. vm_compute. reflexivity. Qed.

(** The literals 0.1 and 0.55 as doubles, a [Float32Array] entry past
    24 bits, a tie that goes to the even neighbour, and the subnormal
    end of the range. *)
Lemma rounding_examples :
  toDouble (1 # 10) == 3602879701896397 # 36028797018963968
  /\ toDouble (55 # 100) == 2476979795053773 # 4503599627370496
  /\ toFloat32 16777217 == 16777216
  /\ toFloat32 16777219 == 16777220
  /\ toDouble (pow2 (-1075)) == 0
  /\ toDouble (3 * pow2 (-1075)) == pow2 (-1073).
Proof. repeat split; vm_compute; reflexivity. Qed.

Lemma toDouble_nonneg x : 0 <= x -> 0 <= toDouble x.
Proof.
  intros H. apply (toDouble_monotone 0 x) in H.
  pose proof toDouble_0. lra.
Qed.

Lemma toDouble_nonpos x : x <= 0 -> toDouble x <= 0.
Proof.
  intros H. apply (toDouble_monotone x 0) in H.
  pose proof toDouble_0. lra.
Qed.

Lemma toDouble_le_1 x : x <= 1 -> toDouble x <= 1.
Proof.
  intros H. apply (toDouble_monotone x 1) in H.
  pose proof toDouble_1. lra.
Qed.

(** Each operation is monotone in the argument that the classifier
    varies. *)
Lemma sub_antitone c a b : a <= b -> sub c b <= sub c a.
Proof. intros H. apply toDouble_monotone. lra. Qed.

Lemma mul_monotone c a b : 0 <= c -> a <= b -> mul a c <= mul b c.
Proof.
  intros Hc H. apply toDouble_monotone. by apply Qmult_le_compat_r.
Qed.

Lemma div_monotone t a b : 0 < t -> a <= b -> div a t <= div b t.
Proof.
  intros Ht H. apply toDouble_monotone.
  apply Qmult_le_compat_r; [exact H|].
  by apply Qlt_le_weak, Qinv_lt_0_compat.
Qed.

Lemma sub_proper c a b : a == b -> sub c a == sub c b.
Proof. intros H. apply toDouble_proper. by rewrite H. Qed.

Lemma mul_proper c a b : a == b -> mul a c == mul b c.
Proof. intros H. apply toDouble_proper. by rewrite H. Qed.

(** The unit interval is closed under [1 - a], a ratio below one stays
    in it, and a score in it is a percentage. *)
Lemma sub_unit a : 0 <= a <= 1 -> 0 <= sub 1 a <= 1.
Proof.
  intros [Hlo Hhi]. split.
  - apply toDouble_nonneg. lra.
  - apply toDouble_le_1. lra.
Qed.

Lemma div_unit d t : 0 <= d -> d <= t -> 0 < t -> 0 <= div d t <= 1.
Proof.
  intros Hd Hdt Ht. split.
  - apply toDouble_nonneg. apply Qle_shift_div_l; [exact Ht | lra].
  - apply toDouble_le_1. apply Qle_shift_div_r; [exact Ht | lra].
Qed.

Lemma mul_percent s : 0 <= s <= 1 -> 0 <= mul s 100 <= 100.
Proof.
  intros [Hlo Hhi]. split.
  - apply toDouble_nonneg. lra.
  - assert (H : s * 100 <= 100) by lra.
    apply toDouble_monotone in H. pose proof toDouble_100.
    unfold mul. lra.
Qed.

Lemma ilog2_unique x (k : Z) :
  pow2 k <= x -> x < pow2 (k + 1) -> ilog2 x = k.
Proof.
  intros Hlo Hhi. pose proof (pow2_pos k) as Hk.
  destruct (ilog2_spec x) as [Hlo' Hhi']; [lra|].
  destruct (Z.lt_trichotomy (ilog2 x) k) as [Hlt|[Heq|Hgt]]; [|exact Heq|].
  - assert (pow2 (ilog2 x + 1) <= pow2 k) by (apply pow2_le; lia). lra.
  - assert (pow2 (k + 1) <= pow2 (ilog2 x)) by (apply pow2_le; lia). lra.
Qed.

(** The next number after 1 is 1 + 2^-52. *)
Lemma double_above_one d :
  isDouble d -> 1 < d -> 1 + pow2 (-52) <= d.
Proof.
  unfold isDouble, toDouble. intros Hd Hone.
  assert (H52 : pow2 (-52) == 1 # 4503599627370496) by reflexivity.
  destruct (Qlt_le_dec d 2) as [Htwo|Htwo]; [|lra].
  assert (Hlog : ilog2 d = 0%Z).
  { apply ilog2_unique; [change (pow2 0) with 1 | change (pow2 (0 + 1)) with 2];
      lra. }
  unfold roundTo in Hd.
  destruct (Qcompare_spec d 0) as [E|E|E]; try lra.
  unfold roundPositive in Hd. rewrite Hlog in Hd.
  change (Z.max (-1074) (0 - 53 + 1)) with (-52)%Z in Hd.
  set (k := roundHalfEven (d / pow2 (-52))) in Hd.
  assert (Hk : (4503599627370496 < k)%Z).
  { rewrite Zlt_Qlt.
    apply (Qmult_lt_r _ _ (pow2 (-52))); [apply pow2_pos|].
    rewrite Hd.
    assert (Hc : inject_Z 4503599627370496 * pow2 (-52) == 1)
      by reflexivity.
    lra. }
  assert (Hk' : inject_Z (4503599627370496 + 1) <= inject_Z k)
    by (rewrite <- Zle_Qle; lia).
  rewrite <- Hd.
  apply (Qmult_le_compat_r _ _ (pow2 (-52))) in Hk';
    [|apply Qlt_le_weak, pow2_pos].
  assert (Hc : inject_Z (4503599627370496 + 1) * pow2 (-52)
               == 1 + pow2 (-52)) by reflexivity.
  lra.
Qed.

End Rounding.

(** ** [splice(index, 1)] *)

Section Splice.

Import JsArray.
Context {A : Type}.
Implicit Types (l : list A) (index : Z).

(** At or past the end nothing is deleted. *)
Lemma splice_past_end l index :
  Z.of_nat (length l) <= index -> splice index 1 l = l.
Proof.
  intros Hge. unfold splice, relativeStart, actualDeleteCount.
  destruct (Z.ltb_spec index 0) as [Hneg|_]; [lia|].
  rewrite Z.min_r by lia.
  replace (Z.min (Z.max 1 0) (Z.of_nat (length l) - Z.of_nat (length l)))
    with 0 by lia.
  rewrite Z.add_0_r, Nat2Z.id, firstn_all, drop_all.
  apply app_nil_r.
Qed.

(** Inside the array the element at [index] goes. *)
Lemma splice_inside l index :
  0 <= index < Z.of_nat (length l) ->
  splice index 1 l = delete (Z.to_nat index) l.
Proof.
  intros [Hlo Hhi]. unfold splice, relativeStart, actualDeleteCount.
  destruct (Z.ltb_spec index 0) as [Hneg|_]; [lia|].
  rewrite Z.min_l by lia.
  replace (Z.min (Z.max 1 0) (Z.of_nat (length l) - index)) with 1 by lia.
  rewrite delete_take_drop. do 2 f_equal. lia.
Qed.

(** A negative index no smaller than minus the length counts from the
    end. *)
Lemma splice_from_end l index :
  - Z.of_nat (length l) <= index < 0 ->
  splice index 1 l = delete (Z.to_nat (Z.of_nat (length l) + index)) l.
Proof.
  intros [Hlo Hhi]. unfold splice, relativeStart, actualDeleteCount.
  destruct (Z.ltb_spec index 0) as [_|Hpos]; [|lia].
  rewrite Z.max_l by lia.
  replace (Z.min (Z.max 1 0)
             (Z.of_nat (length l) - (Z.of_nat (length l) + index)))
    with 1 by lia.
  rewrite delete_take_drop. do 2 f_equal. lia.
Qed.

(** Below minus the length the start is clamped at 0: the first element
    goes. *)
Lemma splice_before_start l index :
  index < - Z.of_nat (length l) -> splice index 1 l = drop 1 l.
Proof.
  intros Hlo. unfold splice, relativeStart, actualDeleteCount.
  destruct (Z.ltb_spec index 0) as [_|Hpos]; [|lia].
  rewrite Z.max_r by lia. rewrite Z.sub_0_r. simpl take.
  destruct l as [|a l]; [reflexivity|].
  replace (Z.min (Z.max 1 0) (Z.of_nat (length (a :: l)))) with 1
    by (simpl length; lia).
  reflexivity.
Qed.

Lemma splice_last l a : splice (-1) 1 (l ++ [a]) = l.
Proof.
  rewrite splice_from_end by (rewrite length_app; simpl; lia).
  rewrite length_app. simpl length.
  replace (Z.to_nat (Z.of_nat (length l + 1) + -1)) with (length l) by lia.
  rewrite delete_take_drop, take_app_length.
  rewrite drop_app_ge by lia.
  replace (S (length l) - length l)%nat with 1%nat by lia.
  apply app_nil_r.
Qed.

(** At most one element is lost, whatever the index. *)
Lemma splice_length l index :
  (length l - 1 <= length (splice index 1 l) <= length l)%nat.
Proof.
  unfold splice, relativeStart, actualDeleteCount.
  rewrite length_app, length_take, length_drop.
  destruct (Z.ltb_spec index 0); lia.
Qed.

End Splice.

(** ** Descriptor store: [removeSampleFromProfile] *)

Section DescriptorStore.

Import JsArray FaceSystem.
Implicit Types (prev : list PersonProfile) (p : PersonProfile)
               (index : Z) (profileId : string).

Lemma removeSampleFromProfile_lookup profileId index prev (i : nat) :
  removeSampleFromProfile profileId index prev !! i =
  (fun p => if String.eqb (id p) profileId
            then removeSample index p else p) <$> prev !! i.
Proof. unfold removeSampleFromProfile. apply list_lookup_fmap. Qed.

Lemma removeSample_past_end index p :
  Z.of_nat (length (images p)) <= index ->
  Z.of_nat (length (descriptors p)) <= index ->
  removeSample index p = p.
Proof.
  intros Hi Hd. unfold removeSample.
  rewrite !splice_past_end by assumption. by destruct p.
Qed.

(** C4, as amended.  An out-of-range removal is not rejected and
    nothing is signalled: the profile stays in the store with its id,
    name and creation time; a sequence whose length is at most the
    index is left as it was, and a sequence whose length is less than
    minus the index loses its first element. *)
Theorem removeSampleFromProfile_out_of_range
    profileId index prev (i : nat) p :
  prev !! i = Some p ->
  id p = profileId ->
  exists p',
    removeSampleFromProfile profileId index prev !! i = Some p'
    /\ id p' = id p /\ name p' = name p /\ createdAt p' = createdAt p
    /\ (Z.of_nat (length (images p)) <= index -> images p' = images p)
    /\ (Z.of_nat (length (descriptors p)) <= index ->
        descriptors p' = descriptors p)
    /\ (index < - Z.of_nat (length (images p)) ->
        images p' = drop 1 (images p))
    /\ (index < - Z.of_nat (length (descriptors p)) ->
        descriptors p' = drop 1 (descriptors p)).
Proof.
  intros Hp Hid. exists (removeSample index p).
  rewrite removeSampleFromProfile_lookup, Hp. simpl.
  rewrite <- Hid, String.eqb_refl.
  repeat split; unfold removeSample; simpl; intros H;
    auto using splice_past_end, splice_before_start.
Qed.

Lemma removeSampleFromProfile_out_of_range_witness :
  let store := [mkProfile "p1" "Ann" ["a0"; "a1"] 0 [[1%Q]; [2%Q]]] in
  exists p',
    removeSampleFromProfile "p1" (-3) store !! 0%nat = Some p'
    /\ images p' = ["a1"] /\ descriptors p' = [[2%Q]].
Proof.
  intros store.
  destruct (removeSampleFromProfile_out_of_range "p1" (-3) store 0
              (mkProfile "p1" "Ann" ["a0"; "a1"] 0 [[1%Q]; [2%Q]])
              eq_refl eq_refl)
    as (p' & Hp' & _ & _ & _ & _ & _ & Himg & Hdesc).
  exists p'. split; [exact Hp'|].
  split; [apply Himg | apply Hdesc]; simpl; lia.
Defined.

(** C4 fails as stated: index 2 is out of range for a profile with two
    samples, and the store comes back unchanged, with no signal. *)
Lemma removeSampleFromProfile_ignores_index_past_end :
  let p := mkProfile "p1" "Ann" ["a0"; "a1"] 0 [[1%Q]; [2%Q]] in
  Z.of_nat (length (descriptors p)) <= 2
  /\ removeSampleFromProfile "p1" 2 [p] = [p].
Proof. split; [simpl; lia | reflexivity]. Qed.

(** C10, as amended.  An index at or past the end of both sequences of
    every matching profile leaves the collection unchanged; an index at
    or past the number of descriptors leaves all descriptors unchanged;
    a negative index no smaller than minus the length counts from the
    end, and index -1 deletes the last image and the last descriptor. *)
Theorem removeSampleFromProfile_splice profileId index prev :
  ((forall p, p ∈ prev -> id p = profileId ->
      Z.of_nat (length (images p)) <= index
      /\ Z.of_nat (length (descriptors p)) <= index) ->
   removeSampleFromProfile profileId index prev = prev)
  /\ ((forall p, p ∈ prev -> id p = profileId ->
         Z.of_nat (length (descriptors p)) <= index) ->
      descriptors <$> removeSampleFromProfile profileId index prev
      = descriptors <$> prev)
  /\ (forall (i : nat) p, prev !! i = Some p -> id p = profileId ->
      exists p',
        removeSampleFromProfile profileId index prev !! i = Some p'
        /\ (- Z.of_nat (length (images p)) <= index < 0 ->
            images p' =
            delete (Z.to_nat (Z.of_nat (length (images p)) + index))
                   (images p))
        /\ (- Z.of_nat (length (descriptors p)) <= index < 0 ->
            descriptors p' =
            delete (Z.to_nat (Z.of_nat (length (descriptors p)) + index))
                   (descriptors p))
        /\ (index = -1 ->
            forall imgs img ds d,
              images p = imgs ++ [img] -> descriptors p = ds ++ [d] ->
              images p' = imgs /\ descriptors p' = ds)).
Proof.
  split; [|split].
  - intros Hall. unfold removeSampleFromProfile.
    induction prev as [|q prev IH]; [reflexivity|].
    rewrite fmap_cons. f_equal.
    + destruct (String.eqb_spec (id q) profileId) as [Heq|]; [|reflexivity].
      destruct (Hall q) as [Hi Hd]; [left | exact Heq |].
      by apply removeSample_past_end.
    + apply IH. intros p Hp. apply Hall. by right.
  - intros Hall. unfold removeSampleFromProfile.
    induction prev as [|q prev IH]; [reflexivity|].
    rewrite !fmap_cons. f_equal.
    + destruct (String.eqb_spec (id q) profileId) as [Heq|]; [|reflexivity].
      simpl. apply splice_past_end, Hall; [left | exact Heq].
    + apply IH. intros p Hp. apply Hall. by right.
  - intros i p Hp Hid. exists (removeSample index p).
    rewrite removeSampleFromProfile_lookup, Hp. simpl.
    rewrite <- Hid, String.eqb_refl.
    split; [reflexivity|]. unfold removeSample; simpl.
    split; [apply splice_from_end|].
    split; [apply splice_from_end|].
    intros -> imgs img ds d -> ->. by rewrite !splice_last.
Qed.

Lemma removeSampleFromProfile_splice_witness :
  let p := mkProfile "p1" "Ann" ["a0"; "a1"] 0 [[1%Q]; [2%Q]] in
  removeSampleFromProfile "p1" 2 [p] = [p]
  /\ exists p',
       removeSampleFromProfile "p1" (-1) [p] !! 0%nat = Some p'
       /\ images p' = ["a0"] /\ descriptors p' = [[1%Q]].
Proof.
  intros p. split.
  - apply (removeSampleFromProfile_splice "p1" 2 [p]).
    intros q Hq _. apply list_elem_of_singleton in Hq as ->.
    simpl; lia.
  - destruct (removeSampleFromProfile_splice "p1" (-1) [p])
      as (_ & _ & Hneg).
    destruct (Hneg 0%nat p eq_refl eq_refl) as (p' & Hp' & _ & _ & Hlast).
    exists p'. split; [exact Hp'|].
    apply (Hlast eq_refl ["a0"] "a1" [[1%Q]] [2%Q]); reflexivity.
Defined.

(** C10 fails as stated: a profile registered without a descriptor has
    one image and no descriptor; index 0 is at least the number of its
    descriptors, yet the call deletes its image. *)
Lemma removeSampleFromProfile_changes_store_past_descriptors :
  let store := addProfile "p1" 0 "Ann" "a0" None [] in
  (forall p, p ∈ store -> Z.of_nat (length (descriptors p)) <= 0)
  /\ removeSampleFromProfile "p1" 0 store <> store.
Proof.
  intros store. split.
  - intros p Hp. apply list_elem_of_singleton in Hp as ->. simpl. lia.
  - discriminate.
Qed.

End DescriptorStore.

(** ** Recognition log: [addLog] *)

Section RecognitionLogFacts.

Import JsArray FaceSystem.
Implicit Types (prev : list RecognitionLog) (log : RecognitionLog)
               (window : Z).

Lemma addLogWithin_suppressed window log prev :
  admits window log prev = false -> addLogWithin window log prev = prev.
Proof.
  unfold admits, addLogWithin. by destruct (debounced window log prev).
Qed.

(** An admitted event goes to the front, ahead of the 199 newest
    entries. *)
Lemma addLogWithin_admitted window log prev :
  admits window log prev = true ->
  addLogWithin window log prev = log :: take 199 prev.
Proof.
  unfold admits, addLogWithin. by destruct (debounced window log prev).
Qed.

Lemma debounced_head window log last older :
  debounced window log (last :: older) = true <->
  personName last = personName log
  /\ timestamp log - timestamp last < window.
Proof.
  simpl. rewrite andb_true_iff, String.eqb_eq, Z.ltb_lt. tauto.
Qed.

Lemma addLogWithin_length window log prev :
  (length prev <= 200)%nat ->
  (length (addLogWithin window log prev) <= 200)%nat.
Proof.
  intros Hlen. unfold addLogWithin, slice0.
  destruct (debounced window log prev); [exact Hlen|].
  rewrite length_take. lia.
Qed.

Lemma logAfter_snoc window events log :
  logAfter window (events ++ [log])
  = addLogWithin window log (logAfter window events).
Proof. unfold logAfter. by rewrite fold_left_app. Qed.

Lemma logAfter_length window events :
  (length (logAfter window events) <= 200)%nat.
Proof.
  induction events as [|log events IH] using rev_ind.
  - simpl. lia.
  - rewrite logAfter_snoc. by apply addLogWithin_length.
Qed.

(** C5.  With a window W, once an event is admitted, an event with the
    same label half a window later is suppressed and leaves the log as
    it is, and one a window and a half later is admitted in front of
    it; the test reads only the newest entry of the log. *)
Theorem addLog_debounce window (first second : RecognitionLog) prev :
  0 < window ->
  personName first = personName second ->
  admits window first prev = true ->
  let logged := addLogWithin window first prev in
  (2 * (timestamp second - timestamp first) = window ->
     admits window second logged = false
     /\ addLogWithin window second logged = logged)
  /\ (2 * (timestamp second - timestamp first) = 3 * window ->
        admits window second logged = true
        /\ addLogWithin window second logged
           = second :: first :: take 198 prev)
  /\ (forall log older,
        admits window log logged = admits window log (first :: older)).
Proof.
  intros Hw Hname Hfirst logged.
  assert (Hlogged : logged = first :: take 199 prev)
    by by apply addLogWithin_admitted.
  split; [|split].
  - intros Hhalf.
    assert (Hs : admits window second logged = false).
    { unfold admits. rewrite Hlogged. apply negb_false_iff.
      apply debounced_head. split; [exact Hname | lia]. }
    split; [exact Hs | by apply addLogWithin_suppressed].
  - intros Hlate.
    assert (Ha : admits window second logged = true).
    { unfold admits. rewrite Hlogged. apply negb_true_iff.
      apply not_true_iff_false. rewrite debounced_head. lia. }
    split; [exact Ha|].
    rewrite addLogWithin_admitted by exact Ha.
    rewrite Hlogged. simpl. do 2 f_equal.
    rewrite take_take. f_equal.
  - intros log older. by rewrite Hlogged.
Qed.

Lemma addLog_debounce_witness :
  let first := mkLog "e1" 10000 "Ann" 90 false in
  let early := mkLog "e2" 10750 "Ann" 91 false in
  let late := mkLog "e3" 12250 "Ann" 92 false in
  addLog early (addLog first []) = [first]
  /\ addLog late (addLog first []) = [late; first].
Proof.
  intros first early late. split.
  - apply (addLog_debounce 1500 first early []);
      [lia | reflexivity | reflexivity | reflexivity].
  - apply (addLog_debounce 1500 first late []);
      [lia | reflexivity | reflexivity | reflexivity].
Defined.

(** C9.  The log is newest first and bounded: an admitted event becomes
    the head, every log that [addLog] can produce from the empty log
    has at most 200 entries, and admitting an event into a log of 200
    drops the last, oldest, entry. *)
Theorem addLog_bounded_newest_first window :
  (forall log prev,
      admits window log prev = true ->
      addLogWithin window log prev = log :: take 199 prev)
  /\ (forall events, (length (logAfter window events) <= 200)%nat)
  /\ (forall log prev,
        length prev = 200%nat ->
        admits window log prev = true ->
        addLogWithin window log prev = log :: removelast prev
        /\ length (addLogWithin window log prev) = 200%nat).
Proof.
  split; [|split].
  - apply addLogWithin_admitted.
  - apply logAfter_length.
  - intros log prev Hlen Hadmit.
    rewrite addLogWithin_admitted by exact Hadmit.
    assert (Hcut : take 199 prev = removelast prev).
    { rewrite removelast_firstn_len, Hlen. reflexivity. }
    rewrite Hcut. split; [reflexivity|].
    simpl. rewrite <- Hcut, length_take. lia.
Qed.

Lemma addLog_bounded_newest_first_witness :
  let old := mkLog "e0" 0 "Ann" 90 false in
  let new := mkLog "e1" 5000 "Bob" 80 false in
  addLog new (replicate 200 old) = new :: replicate 199 old.
Proof.
  intros old new.
  destruct (addLog_bounded_newest_first 1500) as (_ & _ & Hfull).
  destruct (Hfull new (replicate 200 old)) as [Heq _];
    [apply length_replicate | reflexivity |].
  exact Heq.
Defined.

End RecognitionLogFacts.

(** ** Classifier *)

Section ClassifierFacts.

Import FaceApi VisionService.

Variable euclideanDistance : Descriptor -> Descriptor -> Q.

Local Abbreviation dist := euclideanDistance.
Local Abbreviation findBestMatch := (findBestMatch euclideanDistance).
Local Abbreviation nearestIn := (nearestIn euclideanDistance).
Local Abbreviation classify := (classify euclideanDistance).
Local Abbreviation describe := (describe euclideanDistance).

Lemma Qltb_lt (a b : Q) : Qltb a b = true <-> (a < b)%Q.
Proof. unfold Qltb, Qlt. apply Z.ltb_lt. Qed.

Lemma Qltb_ge (a b : Q) : Qltb a b = false <-> (b <= a)%Q.
Proof. unfold Qltb, Qle. rewrite Z.ltb_ge. reflexivity. Qed.

Lemma nearestIn_singleton query lv :
  nearestIn query [lv] (mkMatch (fst lv) (dist query (snd lv))).
Proof.
  exists 0%nat, lv. repeat split.
  - intros [|j] lv' Hj; [|by destruct j].
    injection Hj as <-. apply Qle_refl.
  - intros j lv' Hj. lia.
Qed.

Lemma nearestIn_snoc query seen best lv :
  nearestIn query seen best ->
  nearestIn query (seen ++ [lv])
    (nearer best (mkMatch (fst lv) (dist query (snd lv)))).
Proof.
  intros (i & lv0 & Hi & Hbest & Hmin & Hfirst). unfold nearer. simpl.
  destruct (Qltb (dist query (snd lv)) (distance best)) eqn:Hlt.
  - apply Qltb_lt in Hlt.
    exists (length seen), lv. simpl. split; [|split; [reflexivity|split]].
    + by rewrite lookup_app_r, Nat.sub_diag.
    + intros j lv' Hj. apply lookup_app_Some in Hj as [Hj|[_ Hj]].
      * apply Qlt_le_weak. eapply Qlt_le_trans; [exact Hlt|]. eauto.
      * destruct (j - length seen)%nat as [|k]; [|by destruct k].
        injection Hj as <-. apply Qle_refl.
    + intros j lv' Hlen Hj. rewrite lookup_app_l in Hj by exact Hlen.
      eapply Qlt_le_trans; [exact Hlt|]. eauto.
  - apply Qltb_ge in Hlt.
    exists i, lv0. split; [|split; [exact Hbest|split]].
    + apply lookup_app_l_Some. exact Hi.
    + intros j lv' Hj. apply lookup_app_Some in Hj as [Hj|[_ Hj]].
      * eauto.
      * destruct (j - length seen)%nat as [|k]; [|by destruct k].
        injection Hj as <-. exact Hlt.
    + intros j lv' Hlt' Hj. apply (Hfirst j lv' Hlt').
      apply lookup_lt_Some in Hi.
      rewrite lookup_app_l in Hj by lia. exact Hj.
Qed.

Lemma scan_nearest query rest :
  forall seen best,
    nearestIn query seen best ->
    nearestIn query (seen ++ rest) (scan euclideanDistance query best rest).
Proof.
  induction rest as [|lv rest IH]; intros seen best Hbest.
  - by rewrite app_nil_r.
  - simpl. rewrite cons_middle, app_assoc.
    apply IH. by apply nearestIn_snoc.
Qed.

(** The spec's d* and label*: [findBestMatch] returns the smallest
    distance to a labeled vector of the handle and the label that owns
    the first vector at that distance. *)
Lemma findBestMatch_nearest m query :
  flatten m <> [] ->
  nearestIn query (flatten m) (findBestMatch m query).
Proof.
  intros Hne. unfold FaceApi.findBestMatch.
  destruct (flatten m) as [|lv rest]; [done|].
  apply (scan_nearest query rest [lv]). apply nearestIn_singleton.
Qed.


(** The rounding shows: at distance 0.5 under threshold 0.625 the
    quotient 0.8 and the difference 0.2 are not doubles, and the
    confidence is 19 where exact arithmetic gives 20. *)
Lemma confidence_rounding_visible :
  Qfloor (Number.mul
            (Qmax 0 (Number.sub 1 (Number.div (1 # 2) (5 # 8)))) 100) = 19
  /\ Qfloor (Qmax 0 (1 - (1 # 2) / (5 # 8)) * 100) = 20.
Proof. split; vm_compute; reflexivity. Qed.

Lemma describe_classify st video threshold d :
  (identified (describe st video threshold d),
   det_name (describe st video threshold d),
   det_confidence (describe st video threshold d))
  = classify (faceMatcher st) threshold (descriptor d).
Proof.
  unfold VisionService.describe.
  by destruct (classify (faceMatcher st) threshold (descriptor d))
    as [[i n] c].
Qed.


Lemma findBestMatch_distance_nonneg m query :
  (forall a b, (0 <= dist a b)%Q) ->
  (0 <= distance (findBestMatch m query))%Q.
Proof.
  intros Hnonneg.
  destruct (decide (flatten m = [])) as [Hnil|Hne].
  - unfold FaceApi.findBestMatch. rewrite Hnil. simpl. lra.
  - destruct (findBestMatch_nearest m query Hne)
      as (i & lv & _ & -> & _ & _).
    apply Hnonneg.
Qed.

Lemma Qfloor_percent (score : Q) :
  (0 <= score <= 1)%Q -> 0 <= Qfloor (Number.mul score 100) <= 100.
Proof.
  intros Hscore. destruct (mul_percent score Hscore) as [Hlo Hhi]. split.
  - apply (Qfloor_resp_le 0). exact Hlo.
  - apply (Qfloor_resp_le _ 100). exact Hhi.
Qed.

(** C8.  Distances being non-negative, the confidence of every
    classification result is an integer between 0 and 100, whatever the
    nearest distance and the threshold are. *)
Theorem detectFacesReal_confidence_range st video threshold d :
  (forall a b, (0 <= dist a b)%Q) ->
  0 <= det_confidence (describe st video threshold d) <= 100.
Proof.
  intros Hnonneg.
  pose proof (describe_classify st video threshold d) as Hr.
  unfold VisionService.classify in Hr.
  destruct (faceMatcher st) as [m|].
  - pose proof (findBestMatch_distance_nonneg m (descriptor d) Hnonneg)
      as Hd.
    set (dmin := distance (findBestMatch m (descriptor d))) in *.
    destruct (Qltb dmin threshold) eqn:Hlt;
      apply (f_equal snd) in Hr; cbn [snd] in Hr; rewrite Hr.
    + apply Qltb_lt in Hlt. apply Qfloor_percent.
      assert (Hpos : (0 < threshold)%Q) by lra.
      assert (Hratio : (0 <= Number.div dmin threshold <= 1)%Q).
      { apply div_unit; [exact Hd | lra | exact Hpos]. }
      destruct (sub_unit _ Hratio) as [_ Hhi].
      split; [apply Q.le_max_l|].
      apply Q.max_lub; [lra | exact Hhi].
    + apply Qfloor_percent. apply sub_unit.
      split; [apply Q.min_glb; lra | apply Q.le_min_l].
  - apply (f_equal snd) in Hr. cbn [snd] in Hr. rewrite Hr. lia.
Qed.

Lemma rationalDistance_nonneg a b : (0 <= rationalDistance a b)%Q.
Proof.
  unfold rationalDistance, rationalRoot, Qle. simpl.
  rewrite Z.mul_1_r. apply Z.sqrt_nonneg.
Qed.

(** The first revision differs past distance 1: without the clip its
    rejected branch goes below zero, where the later one stays at 0. *)
Lemma classify_first_revision_unclipped :
  VisionServiceV1.classify (Some (mkMatch "unknown" (3 # 2)))
  = (false, "Unknown", -50)
  /\ Qfloor (Number.mul (Number.sub 1 (Qmin 1 (3 # 2))) 100) = 0.
Proof. split; vm_compute; reflexivity. Qed.

End ClassifierFacts.


Lemma detectFacesReal_confidence_range_witness :
  let st := VisionService.mkState true false
              (Some (FaceApi.mkMatcher
                       [FaceApi.mkLabeled "Ann" [[0; 0]%Q]] (5 # 8)))
              1 None in
  let video := VisionService.mkVideo false false 640 480 in
  let far := VisionService.mkDetection [3; 4]%Q
               (VisionService.mkBox 0 0 64 48) None "" [] in
  0 <= VisionService.det_confidence
         (VisionService.describe FaceApi.rationalDistance st video
            (5 # 8) far) <= 100.
Proof.
  intros st video far.
  apply detectFacesReal_confidence_range.
  apply rationalDistance_nonneg.
Defined.

(** ** Matcher cache *)

Section MatcherCacheFacts.

Import FaceApi VisionService.
Implicit Types (profiles : list PersonProfile) (st : State) (threshold : Q).

Lemma descriptorCount_from profiles (acc : Z) :
  fold_left (fun acc p => acc + Z.of_nat (length (descriptors p)))
            profiles acc
  = acc + descriptorCount profiles.
Proof.
  unfold descriptorCount. revert acc.
  induction profiles as [|p profiles IH]; intros acc; cbn [fold_left].
  - lia.
  - rewrite (IH (acc + _)), (IH (0 + _)). lia.
Qed.

Lemma descriptorCount_cons p profiles :
  descriptorCount (p :: profiles)
  = Z.of_nat (length (descriptors p)) + descriptorCount profiles.
Proof. unfold descriptorCount at 1. simpl. apply descriptorCount_from. Qed.

Lemma descriptorCount_nonneg profiles : 0 <= descriptorCount profiles.
Proof.
  induction profiles as [|p profiles IH]; [done|].
  rewrite descriptorCount_cons. lia.
Qed.

Lemma labelProfiles_from profiles (acc : list LabeledFaceDescriptors) :
  fold_left
    (fun acc p =>
       if (0 <? Z.of_nat (length (descriptors p)))
       then acc ++ [labelProfile p]
       else acc)
    profiles acc
  = acc ++ labelProfiles profiles.
Proof.
  unfold labelProfiles. revert acc.
  induction profiles as [|p profiles IH]; intros acc; cbn [fold_left].
  - by rewrite app_nil_r.
  - destruct (0 <? Z.of_nat (length (descriptors p))).
    + rewrite (IH (acc ++ _)), (IH ([] ++ _)). by rewrite app_assoc.
    + apply IH.
Qed.

Lemma labelProfiles_cons p profiles :
  labelProfiles (p :: profiles)
  = (if 0 <? Z.of_nat (length (descriptors p))
     then [labelProfile p] else [])
    ++ labelProfiles profiles.
Proof.
  unfold labelProfiles at 1. simpl.
  destruct (0 <? Z.of_nat (length (descriptors p)));
    apply labelProfiles_from.
Qed.

(** Only profiles with a descriptor are labeled: none is, exactly when
    the count is zero. *)
Lemma labelProfiles_nil profiles :
  labelProfiles profiles = [] <-> descriptorCount profiles = 0.
Proof.
  induction profiles as [|p profiles IH]; [done|].
  rewrite labelProfiles_cons, descriptorCount_cons.
  pose proof (descriptorCount_nonneg profiles).
  destruct (Z.ltb_spec 0 (Z.of_nat (length (descriptors p)))).
  - split; [discriminate | lia].
  - simpl. rewrite IH. lia.
Qed.

(** The labeled sets are the profiles that have a descriptor, in store
    order, each under its name with its descriptors as [Float32Array]s. *)
Lemma labelProfiles_filter profiles :
  labelProfiles profiles
  = (fun p => mkLabeled (name p) (Number.float32Array <$> descriptors p))
    <$> filter (fun p => descriptors p <> []) profiles.
Proof.
  induction profiles as [|p profiles IH]; [done|].
  rewrite labelProfiles_cons, IH.
  destruct (descriptors p) as [|d ds] eqn:Hd.
  - rewrite filter_cons_False by (rewrite Hd; tauto). reflexivity.
  - rewrite filter_cons_True by (rewrite Hd; discriminate).
    reflexivity.
Qed.


(** What a rebuild leaves in [faceMatcher]. *)
Lemma rebuild_handle st profiles threshold :
  faceMatcher (rebuild st profiles threshold)
  = let stocked := filter (fun p => descriptors p <> []) profiles in
    match stocked with
    | [] => None
    | _ :: _ =>
        Some (mkMatcher
                ((fun p => mkLabeled (name p)
                             (Number.float32Array <$> descriptors p))
                 <$> stocked)
                threshold)
    end.
Proof.
  unfold rebuild. cbn [faceMatcher]. rewrite labelProfiles_filter.
  by destruct (filter (fun p => descriptors p <> []) profiles).
Qed.

Lemma flatten_labelProfiles profiles threshold :
  labelProfiles profiles <> [] ->
  flatten (mkMatcher (labelProfiles profiles) threshold) <> [].
Proof.
  unfold flatten. simpl.
  induction profiles as [|p profiles IH]; [done|].
  rewrite labelProfiles_cons.
  destruct (Z.ltb_spec 0 (Z.of_nat (length (descriptors p)))) as [Hpos|].
  - intros _. rewrite bind_app, bind_cons. simpl.
    destruct (descriptors p); [simpl in Hpos; lia | discriminate].
  - exact IH.
Qed.

Lemma rebuild_consistent st profiles threshold :
  cacheConsistent (rebuild st profiles threshold).
Proof.
  unfold cacheConsistent, rebuild. simpl.
  pose proof (labelProfiles_nil profiles) as Hnil.
  pose proof (descriptorCount_nonneg profiles).
  destruct (labelProfiles profiles) as [|l ls] eqn:Hl; simpl.
  - left. by apply Hnil.
  - split.
    + destruct Hnil as [_ Hnil].
      destruct (decide (descriptorCount profiles = 0)) as [H0|]; [|lia].
      by specialize (Hnil H0).
    + rewrite <- Hl. apply flatten_labelProfiles. by rewrite Hl.
Qed.

Lemma updateFaceMatcher_consistent (faceapi : bool) st profiles threshold :
  cacheConsistent st ->
  cacheConsistent (updateFaceMatcher faceapi st profiles threshold).
Proof.
  intros Hst. unfold updateFaceMatcher.
  destruct (negb faceapi || negb (isCriticalModelsLoaded st)); [done|].
  destruct (_ && _); [done|]. apply rebuild_consistent.
Qed.

End MatcherCacheFacts.

(** ** Model loader *)

Section LoaderFacts.

Import FaceApi VisionService.

Variable euclideanDistance : Descriptor -> Descriptor -> Q.
Variable urls : list string.

Local Abbreviation step := (step euclideanDistance urls).
Local Abbreviation run := (run euclideanDistance urls).
Local Abbreviation reachable := (reachable euclideanDistance urls).

Lemma boot_consistent faceapi : consistent (boot faceapi).
Proof.
  split; [split|].
  - discriminate.
  - intros p t Hp. simpl in Hp. by rewrite lookup_empty in Hp.
  - right. reflexivity.
Qed.

Lemma resolved_consistent value rt :
  consistent rt -> consistent (fst (resolved value rt)).
Proof.
  intros [[Hflag Htasks] Hcache]. split; [split|]; simpl; try done.
  intros p t Hp. destruct (Htasks p t Hp) as (? & ? & ? & Hpending).
  repeat split; try done. by apply lookup_app_l_Some.
Qed.

Lemma loadModelsFrom_consistent rt :
  consistent rt -> consistent (fst (loadModelsFrom urls rt)).
Proof.
  intros Hrt. unfold loadModelsFrom.
  destruct (faceapiDefined rt) eqn:Hfa; simpl negb; cbv iota;
    [|by apply resolved_consistent].
  destruct (isCriticalModelsLoaded (vars rt)) eqn:Hloaded;
    [by apply resolved_consistent|].
  destruct (loadingPromise (vars rt)) as [p|] eqn:Hcached; [done|].
  destruct Hrt as [[Hflag Htasks] Hcache].
  assert (Hidle : forall p t, tasks rt !! p = Some t -> False).
  { intros p t Hp. destruct (Htasks p t Hp) as (_ & _ & Hp' & _).
    congruence. }
  destruct urls as [|url rest]; simpl.
  - split; [split|]; simpl; try done.
    intros p t Hp. apply lookup_delete_Some in Hp as [_ Hp].
    by destruct (Hidle p t).
  - split; [split|]; simpl; try done.
    intros p t Hp. apply lookup_insert_Some in Hp as [[<- _]|[_ Hp]].
    + repeat split; try done. apply list_lookup_middle. reflexivity.
    + by destruct (Hidle p t).
Qed.

Lemma settle_consistent p o rt :
  consistent rt -> consistent (settle p o rt).
Proof.
  intros Hrt. unfold settle.
  destruct (tasks rt !! p) as [t|] eqn:Htask; [|done].
  destruct Hrt as [[Hflag Htasks] Hcache].
  destruct (Htasks p t Htask) as (Hfa & Hloaded & Hcached & Hpending).
  assert (Hone : forall p' t', tasks rt !! p' = Some t' -> p' = p).
  { intros p' t' Hp'. destruct (Htasks p' t' Hp') as (_ & _ & Hc & _).
    congruence. }
  assert (Hgone : forall p' t', delete p (tasks rt) !! p' = Some t' -> False).
  { intros p' t' Hp'. apply lookup_delete_Some in Hp' as [Hne Hp'].
    apply Hne. symmetry. by eapply Hone. }
  assert (Hnext : forall urls', consistent (attempt p urls' rt)).
  { intros [|url rest]; simpl.
    - split; [split|]; simpl; try done.
      intros p' t' Hp'. by destruct (Hgone p' t').
    - split; [split|]; simpl; try done.
      intros p' t' Hp'.
      apply lookup_insert_Some in Hp' as [[<- _]|[Hne Hp']]; [done|].
      destruct Hne. symmetry. by eapply Hone. }
  destruct o; [|apply Hnext..].
  split; [split|]; simpl; try done.
  intros p' t' Hp'. by destruct (Hgone p' t').
Qed.

Lemma settleDemographics_consistent ok rt :
  consistent rt -> consistent (settleDemographics ok rt).
Proof.
  intros Hrt. unfold settleDemographics.
  by destruct (background rt).
Qed.

Lemma detectFacesReal_state faceapi st video detections profiles threshold :
  fst (detectFacesReal euclideanDistance faceapi st video detections
         profiles threshold) = st
  \/ fst (detectFacesReal euclideanDistance faceapi st video detections
            profiles threshold)
     = updateFaceMatcher faceapi st profiles
         (default DEFAULT_THRESHOLD threshold).
Proof.
  unfold detectFacesReal.
  destruct video as [v|]; [|by left].
  destruct (_ || _); [by left|].
  destruct detections; [by left | by right].
Qed.

Lemma updateFaceMatcher_flags faceapi st profiles threshold :
  let st' := updateFaceMatcher faceapi st profiles threshold in
  isCriticalModelsLoaded st' = isCriticalModelsLoaded st
  /\ isDemographicsLoaded st' = isDemographicsLoaded st
  /\ loadingPromise st' = loadingPromise st.
Proof.
  unfold updateFaceMatcher.
  destruct (negb faceapi || negb (isCriticalModelsLoaded st)); [done|].
  by destruct (_ && _).
Qed.

Lemma detect_consistent video detections profiles threshold rt :
  consistent rt ->
  consistent (step rt (Detect video detections profiles threshold)).
Proof.
  intros [[Hflag Htasks] Hcache]. simpl.
  destruct (detectFacesReal_state (faceapiDefined rt) (vars rt) video
              detections profiles threshold) as [Heq|Heq].
  - split; [split|]; simpl; by rewrite Heq.
  - destruct (updateFaceMatcher_flags (faceapiDefined rt) (vars rt)
                profiles (default DEFAULT_THRESHOLD threshold))
      as (Hl & _ & Hc).
    split; [split|]; simpl; rewrite Heq.
    + by rewrite Hl.
    + rewrite Hl, Hc. exact Htasks.
    + by apply updateFaceMatcher_consistent.
Qed.

Lemma step_consistent rt e : consistent rt -> consistent (step rt e).
Proof.
  destruct e; simpl step.
  - apply loadModelsFrom_consistent.
  - apply settle_consistent.
  - apply settleDemographics_consistent.
  - apply detect_consistent.
Qed.

Lemma run_consistent events :
  forall rt, consistent rt -> consistent (run rt events).
Proof.
  induction events as [|e events IH]; intros rt Hrt; [done|].
  simpl. apply IH. by apply step_consistent.
Qed.

Lemma reachable_consistent rt : reachable rt -> consistent rt.
Proof.
  intros (faceapi & events & ->).
  apply run_consistent, boot_consistent.
Qed.

(** C2.  In every runtime the page can reach: once the critical models
    are loaded, [loadModels] hands out a promise already fulfilled with
    true and asks no source; while a body of [loadModels] is suspended,
    it is the only one, and [loadModels] hands out its pending promise,
    the cached one, leaving the runtime as it is. *)
Theorem loadModels_no_second_acquisition rt :
  reachable rt ->
  (isCriticalModelsLoaded (vars rt) = true ->
     let (rt', p) := loadModelsFrom urls rt in
     promises rt' !! p = Some (Fulfilled true)
     /\ attempts rt' = attempts rt
     /\ tasks rt' = tasks rt
     /\ vars rt' = vars rt)
  /\ (forall p t,
        tasks rt !! p = Some t ->
        loadModelsFrom urls rt = (rt, p)
        /\ loadingPromise (vars rt) = Some p
        /\ promises rt !! p = Some Pending
        /\ forall p', is_Some (tasks rt !! p') -> p' = p).
Proof.
  intros Hreach.
  destruct (reachable_consistent rt Hreach) as [[Hflag Htasks] _].
  split.
  - intros Hloaded. unfold loadModelsFrom.
    rewrite (Hflag Hloaded), Hloaded. simpl.
    repeat split. apply list_lookup_middle. reflexivity.
  - intros p t Hp.
    destruct (Htasks p t Hp) as (Hfa & Hloaded & Hcached & Hpending).
    repeat split; try done.
    + unfold loadModelsFrom. by rewrite Hfa, Hloaded, Hcached.
    + intros p' [t' Hp'].
      destruct (Htasks p' t' Hp') as (_ & _ & Hcached' & _).
      congruence.
Qed.

(** What a fresh acquisition looks like right after the call. *)
Lemma loadModelsFrom_start rt url rest :
  urls = url :: rest ->
  faceapiDefined rt = true ->
  isCriticalModelsLoaded (vars rt) = false ->
  loadingPromise (vars rt) = None ->
  let (rt', p) := loadModelsFrom urls rt in
  p = length (promises rt)
  /\ promises rt' = promises rt ++ [Pending]
  /\ tasks rt' = <[p := mkTask url rest]> (tasks rt)
  /\ attempts rt' = attempts rt ++ [url]
  /\ loadingPromise (vars rt') = Some p
  /\ isCriticalModelsLoaded (vars rt') = false
  /\ faceapiDefined rt' = true.
Proof.
  intros -> Hfa Hloaded Hcached. unfold loadModelsFrom.
  rewrite Hfa, Hloaded, Hcached. simpl. by rewrite Hloaded.
Qed.

Lemma settle_failure p o rt t :
  tasks rt !! p = Some t ->
  o <> Loaded ->
  settle p o rt = attempt p (remaining t) rt.
Proof. intros Htask Ho. unfold settle. rewrite Htask. by destruct o. Qed.

(** One failure after the other walks the body of [p] down the rest of
    the list and then resets the cache. *)
Lemma settle_failures rest :
  forall rt (p : PromiseRef) url (outcomes : list Outcome),
    tasks rt !! p = Some (mkTask url rest) ->
    (p < length (promises rt))%nat ->
    length outcomes = S (length rest) ->
    Forall (fun o => o <> Loaded) outcomes ->
    let rt' := fold_left (fun rt o => settle p o rt) outcomes rt in
    promises rt' !! p = Some (Fulfilled false)
    /\ length (promises rt') = length (promises rt)
    /\ tasks rt' !! p = None
    /\ attempts rt' = attempts rt ++ rest
    /\ loadingPromise (vars rt') = None
    /\ isCriticalModelsLoaded (vars rt') = isCriticalModelsLoaded (vars rt)
    /\ faceapiDefined rt' = faceapiDefined rt.
Proof.
  induction rest as [|next rest IH];
    intros rt p url [|o outcomes] Htask Hp Hlen Hfail; try discriminate;
    apply Forall_cons in Hfail as [Ho Hfail];
    cbn [fold_left]; rewrite (settle_failure p o rt _ Htask Ho);
    cbn [remaining].
  - destruct outcomes; [|discriminate]. simpl.
    split; [by apply list_lookup_insert_eq|].
    split; [by rewrite length_insert|].
    split; [by apply lookup_delete_eq|].
    split; [by rewrite app_nil_r|]. done.
  - assert (Hnext :
      let rt1 := attempt p (next :: rest) rt in
      let rt' := fold_left (fun rt o => settle p o rt) outcomes rt1 in
      promises rt' !! p = Some (Fulfilled false)
      /\ length (promises rt') = length (promises rt)
      /\ tasks rt' !! p = None
      /\ attempts rt' = attempts rt ++ next :: rest
      /\ loadingPromise (vars rt') = None
      /\ isCriticalModelsLoaded (vars rt') = isCriticalModelsLoaded (vars rt)
      /\ faceapiDefined rt' = faceapiDefined rt).
    { intros rt1 rt'.
      destruct (IH rt1 p next outcomes) as (H1 & H2 & H3 & H4 & H5 & H6 & H7);
        [apply lookup_insert_eq | exact Hp | by injection Hlen | exact Hfail |].
      repeat split; try done.
      fold rt' in H4. rewrite H4. simpl. by rewrite <- app_assoc. }
    exact Hnext.
Qed.

(** C6.  When the critical models are not loaded and no acquisition is
    cached, a call starts one; if every source of the list then fails or
    times out, its promise is fulfilled with false after each source was
    asked once, in order, and the cached promise is reset; the next call
    starts over with a new promise at the first source. *)
Theorem loadModels_retry_after_failure rt (outcomes : list Outcome) :
  urls <> [] ->
  faceapiDefined rt = true ->
  isCriticalModelsLoaded (vars rt) = false ->
  loadingPromise (vars rt) = None ->
  length outcomes = length urls ->
  Forall (fun o => o <> Loaded) outcomes ->
  let (rt1, p) := loadModelsFrom urls rt in
  let rt2 := fold_left (fun rt o => settle p o rt) outcomes rt1 in
  promises rt1 !! p = Some Pending
  /\ promises rt2 !! p = Some (Fulfilled false)
  /\ attempts rt2 = attempts rt ++ urls
  /\ loadingPromise (vars rt2) = None
  /\ isCriticalModelsLoaded (vars rt2) = false
  /\ tasks rt2 !! p = None
  /\ let (rt3, p') := loadModelsFrom urls rt2 in
     p' <> p
     /\ promises rt3 !! p' = Some Pending
     /\ loadingPromise (vars rt3) = Some p'
     /\ exists url rest,
          urls = url :: rest
          /\ tasks rt3 !! p' = Some (mkTask url rest)
          /\ attempts rt3 = attempts rt2 ++ [url].
Proof.
  intros Hne Hfa Hloaded Hcached Hlen Hfail.
  destruct urls as [|url rest] eqn:Hurls; [done|]. rewrite <- Hurls.
  pose proof (loadModelsFrom_start rt url rest Hurls Hfa Hloaded Hcached)
    as Hstart.
  destruct (loadModelsFrom urls rt) as [rt1 p].
  destruct Hstart as (-> & Hps1 & Hts1 & Hat1 & Hc1 & Hl1 & Hfa1).
  intros rt2.
  destruct (settle_failures rest rt1 (length (promises rt)) url outcomes)
    as (Hp2 & Hlen2 & Hts2 & Hat2 & Hc2 & Hl2 & Hfa2).
  { rewrite Hts1. apply lookup_insert_eq. }
  { rewrite Hps1, length_app. simpl. lia. }
  { exact Hlen. }
  { exact Hfail. }
  fold rt2 in Hp2, Hlen2, Hts2, Hat2, Hc2, Hl2, Hfa2.
  split; [rewrite Hps1; by apply list_lookup_middle|].
  split; [exact Hp2|].
  split; [rewrite Hat2, Hat1, Hurls; by rewrite <- app_assoc|].
  split; [exact Hc2|].
  split; [congruence|].
  split; [exact Hts2|].
  pose proof (loadModelsFrom_start rt2 url rest Hurls) as Hagain.
  destruct (loadModelsFrom urls rt2) as [rt3 p'].
  destruct Hagain as (-> & Hps3 & Hts3 & Hat3 & Hc3 & _ & _); try congruence.
  split; [rewrite Hlen2, Hps1, length_app; simpl; lia|].
  split; [rewrite Hps3; by apply list_lookup_middle|].
  split; [exact Hc3|].
  exists url, rest. split; [exact Hurls|].
  split; [rewrite Hts3; apply lookup_insert_eq | exact Hat3].
Qed.

End LoaderFacts.

(** ** Matcher cache and classifier while the page runs *)

Section CacheInOperation.

Import FaceApi VisionService.

Variable euclideanDistance : Descriptor -> Descriptor -> Q.
Variable urls : list string.

Local Abbreviation reachable := (reachable euclideanDistance urls).
Local Abbreviation detectFacesReal := (detectFacesReal euclideanDistance).
Local Abbreviation describe := (describe euclideanDistance).

Lemma updateFaceMatcher_cached faceapi st profiles threshold m :
  faceMatcher st = Some m ->
  descriptorCount profiles = lastDescriptorCount st ->
  updateFaceMatcher faceapi st profiles threshold = st.
Proof.
  intros Hm Hcount. unfold updateFaceMatcher.
  destruct (negb faceapi || negb (isCriticalModelsLoaded st)); [done|].
  rewrite Hcount, Z.eqb_refl, Hm. reflexivity.
Qed.

Lemma updateFaceMatcher_loaded st profiles threshold :
  isCriticalModelsLoaded st = true ->
  updateFaceMatcher true st profiles threshold
  = if (descriptorCount profiles =? lastDescriptorCount st)
       && bool_decide (is_Some (faceMatcher st))
    then st else rebuild st profiles threshold.
Proof. intros Hloaded. unfold updateFaceMatcher. by rewrite Hloaded. Qed.

(** Without a handle, a rebuild for the recorded count gives the same
    state again. *)
Lemma rebuild_same st profiles threshold :
  cacheConsistent st ->
  faceMatcher st = None ->
  descriptorCount profiles = lastDescriptorCount st ->
  rebuild st profiles threshold = st.
Proof.
  intros Hst Hnone Hcount. unfold cacheConsistent in Hst.
  rewrite Hnone in Hst.
  pose proof (descriptorCount_nonneg profiles).
  assert (Hzero : descriptorCount profiles = 0) by lia.
  unfold rebuild. apply labelProfiles_nil in Hzero as ->. simpl.
  destruct st; simpl in *. congruence.
Qed.

(** C3.  While the page runs with the critical models loaded,
    [updateFaceMatcher] replaces the cache by a fresh build exactly when
    the total descriptor count differs from the recorded one.  The fresh
    build records the new count and leaves the loader's variables alone;
    its handle is made from the profiles and the threshold of this call:
    one labeled set for each profile that has a descriptor, in store
    order, under the profile's name, with the descriptors as
    [Float32Array]s, and no handle when no profile has a descriptor.
    With an equal count the state stays as it is, and an existing handle
    is kept whatever the profiles and the threshold have become. *)
Theorem updateFaceMatcher_rebuild_iff rt profiles threshold :
  reachable rt ->
  isCriticalModelsLoaded (vars rt) = true ->
  let st := vars rt in
  let st' := updateFaceMatcher (faceapiDefined rt) st profiles threshold in
  (descriptorCount profiles <> lastDescriptorCount st ->
     st' = rebuild st profiles threshold
     /\ lastDescriptorCount st' = descriptorCount profiles
     /\ st' <> st
     /\ faceMatcher st'
        = (let stocked := filter (fun p => descriptors p <> []) profiles in
           match stocked with
           | [] => None
           | _ :: _ =>
               Some (mkMatcher
                       ((fun p =>
                           mkLabeled (name p)
                             (Number.float32Array <$> descriptors p))
                        <$> stocked)
                       threshold)
           end)
     /\ isCriticalModelsLoaded st' = isCriticalModelsLoaded st
     /\ isDemographicsLoaded st' = isDemographicsLoaded st
     /\ loadingPromise st' = loadingPromise st)
  /\ (descriptorCount profiles = lastDescriptorCount st -> st' = st)
  /\ (forall m profiles' threshold',
        faceMatcher st = Some m ->
        descriptorCount profiles' = lastDescriptorCount st ->
        faceMatcher
          (updateFaceMatcher (faceapiDefined rt) st profiles' threshold')
        = Some m).
Proof.
  intros Hreach Hloaded st st'.
  destruct (reachable_consistent _ _ rt Hreach) as [[Hflag _] Hcache].
  subst st'. rewrite (Hflag Hloaded).
  rewrite updateFaceMatcher_loaded by exact Hloaded.
  split; [|split].
  - intros Hdiff. apply Z.eqb_neq in Hdiff as Hneq. rewrite Hneq.
    cbn [andb]. split; [reflexivity|]. split; [reflexivity|].
    split; [|split; [apply rebuild_handle | by repeat split]].
    intros Heq. apply Hdiff.
    by apply (f_equal lastDescriptorCount) in Heq.
  - intros Hsame. rewrite Hsame, Z.eqb_refl. simpl.
    destruct (faceMatcher st) as [m|] eqn:Hm.
    + by rewrite bool_decide_eq_true_2.
    + rewrite bool_decide_eq_false_2 by (by intros [? ?]).
      by apply rebuild_same.
  - intros m profiles' threshold' Hm Hsame.
    by rewrite (updateFaceMatcher_cached _ _ _ _ m).
Qed.

(** When the guard of [detectFacesReal] lets a frame with faces
    through, the result is the callback mapped over the faces, in the
    state the cache update leaves. *)
Lemma detectFacesReal_results st v detections profiles threshold :
  isCriticalModelsLoaded st = true ->
  paused v = false -> ended v = false ->
  detections <> [] ->
  let threshold' := default DEFAULT_THRESHOLD threshold in
  let st' := updateFaceMatcher true st profiles threshold' in
  detectFacesReal true st (Some v) detections profiles threshold
  = (st', describe st' v threshold' <$> detections).
Proof.
  intros Hloaded Hpaused Hended Hfaces. unfold VisionService.detectFacesReal.
  rewrite Hloaded, Hpaused, Hended. simpl.
  by destruct detections.
Qed.

Lemma descriptorCount_zero profiles :
  (forall p, p ∈ profiles -> descriptors p = []) ->
  descriptorCount profiles = 0.
Proof.
  induction profiles as [|p profiles IH]; intros Hall; [done|].
  rewrite descriptorCount_cons, IH, (Hall p); [done|left|].
  intros q Hq. apply Hall. by right.
Qed.

Lemma updateFaceMatcher_no_vectors st profiles threshold :
  cacheConsistent st ->
  isCriticalModelsLoaded st = true ->
  descriptorCount profiles = 0 ->
  faceMatcher (updateFaceMatcher true st profiles threshold) = None.
Proof.
  intros Hst Hloaded Hzero.
  rewrite updateFaceMatcher_loaded by exact Hloaded.
  unfold cacheConsistent in Hst.
  destruct (faceMatcher st) as [m|] eqn:Hm.
  - destruct (Z.eqb_spec (descriptorCount profiles) (lastDescriptorCount st));
      [lia|].
    simpl. by apply labelProfiles_nil in Hzero as ->.
  - rewrite andb_comm. simpl.
    by apply labelProfiles_nil in Hzero as ->.
Qed.

(** C7.  While the page runs, if no profile has a descriptor, a frame
    with faces leaves the cache without a handle, and every face of the
    frame comes back not identified, named "Unknown", with confidence
    0. *)
Theorem detectFacesReal_no_vectors
    rt video detections profiles threshold :
  reachable rt ->
  (forall p, p ∈ profiles -> descriptors p = []) ->
  let out := detectFacesReal (faceapiDefined rt) (vars rt) video
               detections profiles threshold in
  (forall r, r ∈ snd out ->
     identified r = false /\ det_name r = "Unknown" /\ det_confidence r = 0)
  /\ (forall v,
        video = Some v -> paused v = false -> ended v = false ->
        isCriticalModelsLoaded (vars rt) = true ->
        detections <> [] ->
        faceMatcher (fst out) = None
        /\ length (snd out) = length detections).
Proof.
  intros Hreach Hprofiles out.
  destruct (reachable_consistent _ _ rt Hreach) as [[Hflag _] Hcache].
  pose proof (descriptorCount_zero profiles Hprofiles) as Hzero.
  set (threshold' := default DEFAULT_THRESHOLD threshold).
  assert (Hnone : isCriticalModelsLoaded (vars rt) = true ->
            faceMatcher (updateFaceMatcher (faceapiDefined rt) (vars rt)
                           profiles threshold') = None).
  { intros Hloaded. rewrite (Hflag Hloaded).
    by apply updateFaceMatcher_no_vectors. }
  subst out. unfold VisionService.detectFacesReal. fold threshold'.
  split.
  - destruct video as [v|]; [|by intros r Hr%elem_of_nil].
    destruct (isCriticalModelsLoaded (vars rt)) eqn:Hloaded;
      [|by intros r Hr%elem_of_nil].
    destruct (_ || _); [by intros r Hr%elem_of_nil|].
    destruct detections as [|d detections]; [by intros r Hr%elem_of_nil|].
    cbn [snd]. intros r Hr.
    apply list_elem_of_fmap in Hr as (d' & -> & _).
    pose proof (describe_classify euclideanDistance
                  (updateFaceMatcher (faceapiDefined rt) (vars rt)
                     profiles threshold') v threshold' d') as Hclass.
    rewrite (Hnone eq_refl) in Hclass. by injection Hclass as -> -> ->.
  - intros v -> Hpaused Hended Hloaded Hfaces.
    rewrite Hloaded, Hpaused, Hended, (Hflag Hloaded). simpl.
    destruct detections as [|d detections]; [done|]. cbn [fst snd].
    split; [rewrite <- (Hflag Hloaded); by apply Hnone|].
    by rewrite length_fmap.
Qed.

End CacheInOperation.

(** ** The theorems at work on the real source list *)

Lemma loadModels_no_second_acquisition_witness :
  let loading :=
    VisionService.run FaceApi.rationalDistance VisionService.MODEL_URLS
      (VisionService.boot true) [VisionService.CallLoadModels] in
  let ready :=
    VisionService.run FaceApi.rationalDistance VisionService.MODEL_URLS
      (VisionService.boot true)
      [VisionService.CallLoadModels;
       VisionService.Settle 0%nat VisionService.Loaded] in
  VisionService.loadModels loading = (loading, 0%nat)
  /\ VisionService.attempts (fst (VisionService.loadModels ready))
     = VisionService.attempts ready.
Proof.
  intros loading ready. split.
  - assert (Hreach : VisionService.reachable FaceApi.rationalDistance
                       VisionService.MODEL_URLS loading)
      by (by exists true, [VisionService.CallLoadModels]).
    destruct (loadModels_no_second_acquisition _ _ loading Hreach)
      as [_ Hflight].
    destruct (Hflight 0%nat
                (VisionService.mkTask
                   "https://cdn.jsdelivr.net/gh/cgarciagl/face-api.js@0.22.2/weights"
                   (tail VisionService.MODEL_URLS)) eq_refl)
      as [Hsame _].
    exact Hsame.
  - assert (Hreach : VisionService.reachable FaceApi.rationalDistance
                       VisionService.MODEL_URLS ready)
      by (by exists true,
               [VisionService.CallLoadModels;
                VisionService.Settle 0%nat VisionService.Loaded]).
    destruct (loadModels_no_second_acquisition _ _ ready Hreach)
      as [Hready _].
    specialize (Hready eq_refl). unfold VisionService.loadModels.
    destruct (VisionService.loadModelsFrom VisionService.MODEL_URLS ready)
      as [rt' p].
    destruct Hready as (_ & Hattempts & _). exact Hattempts.
Defined.

Lemma loadModels_retry_after_failure_witness :
  let rt1 := fst (VisionService.loadModels (VisionService.boot true)) in
  let rt2 :=
    fold_left (fun rt o => VisionService.settle 0%nat o rt)
      [VisionService.Failed; VisionService.TimedOut; VisionService.Failed]
      rt1 in
  VisionService.promises rt2 !! 0%nat = Some (VisionService.Fulfilled false)
  /\ VisionService.attempts rt2 = VisionService.MODEL_URLS
  /\ VisionService.loadingPromise (VisionService.vars rt2) = None.
Proof.
  intros rt1 rt2.
  pose proof (loadModels_retry_after_failure VisionService.MODEL_URLS
                (VisionService.boot true)
                [VisionService.Failed; VisionService.TimedOut;
                 VisionService.Failed]) as Hretry.
  lazy zeta in Hretry.
  destruct Hretry as (_ & Hfalse & Hattempts & Hreset & _);
    [discriminate | reflexivity | reflexivity | reflexivity | reflexivity
    | repeat constructor; discriminate |].
  split; [exact Hfalse|]. split; [exact Hattempts | exact Hreset].
Defined.

Lemma updateFaceMatcher_rebuild_iff_witness :
  let video := VisionService.mkVideo false false 640 480 in
  let face := VisionService.mkDetection [1 # 2; 0]%Q
                (VisionService.mkBox 0 0 64 48) None "" [] in
  let before := [mkProfile "p1" "Ann" ["a0"; "a1"] 0 [[0; 0]; [1; 0]]%Q;
                 mkProfile "p2" "Bob" ["b0"] 0 []] in
  let after := [mkProfile "p1" "Ann" [] 0 [];
                mkProfile "p2" "Bob" ["b0"; "b1"; "b2"] 0
                  [[5; 5]; [6; 6]]%Q] in
  let rt :=
    VisionService.run FaceApi.rationalDistance VisionService.MODEL_URLS
      (VisionService.boot true)
      [VisionService.CallLoadModels;
       VisionService.Settle 0%nat VisionService.Loaded;
       VisionService.Detect (Some video) [face] before (Some (5 # 8))] in
  VisionService.updateFaceMatcher true (VisionService.vars rt) after (7 # 8)
  = VisionService.vars rt.
Proof.
  intros video face before after rt.
  assert (Hreach : VisionService.reachable FaceApi.rationalDistance
                     VisionService.MODEL_URLS rt).
  { exists true,
      [VisionService.CallLoadModels;
       VisionService.Settle 0%nat VisionService.Loaded;
       VisionService.Detect (Some video) [face] before (Some (5 # 8))].
    reflexivity. }
  destruct (updateFaceMatcher_rebuild_iff _ _ rt after (7 # 8) Hreach
              eq_refl) as (_ & Hsame & _).
  apply Hsame. reflexivity.
Defined.

Lemma detectFacesReal_no_vectors_witness :
  let video := VisionService.mkVideo false false 640 480 in
  let face := VisionService.mkDetection [1 # 2; 0]%Q
                (VisionService.mkBox 0 0 64 48) None "" [] in
  let profiles := [mkProfile "p1" "Ann" ["a0"] 0 []] in
  let rt :=
    VisionService.run FaceApi.rationalDistance VisionService.MODEL_URLS
      (VisionService.boot true)
      [VisionService.CallLoadModels;
       VisionService.Settle 0%nat VisionService.Loaded] in
  let out :=
    VisionService.detectFacesReal FaceApi.rationalDistance true
      (VisionService.vars rt) (Some video) [face] profiles None in
  VisionService.faceMatcher (fst out) = None
  /\ length (snd out) = 1%nat.
Proof.
  intros video face profiles rt out.
  assert (Hreach : VisionService.reachable FaceApi.rationalDistance
                     VisionService.MODEL_URLS rt).
  { exists true,
      [VisionService.CallLoadModels;
       VisionService.Settle 0%nat VisionService.Loaded].
    reflexivity. }
  destruct (detectFacesReal_no_vectors _ _ rt (Some video) [face] profiles
              None Hreach) as [_ Hhandle].
  - intros p Hp. apply list_elem_of_singleton in Hp as ->. reflexivity.
  - apply (Hhandle video); (reflexivity || discriminate).
Defined.

(** * Further properties *)

(** ** Descriptor store: the other mutations *)

Section StoreMutations.

Import JsArray FaceSystem.
Implicit Types (prev : list PersonProfile) (p : PersonProfile)
               (index : Z) (pid : string).

Lemma splice_length_same {A B} (l : list A) (k : list B) index :
  length l = length k ->
  length (splice index 1 l) = length (splice index 1 k).
Proof.
  intros Hlen. unfold splice.
  rewrite !length_app, !length_take, !length_drop, Hlen. reflexivity.
Qed.

Lemma splice_zip {A B} (l : list A) (k : list B) index :
  length l = length k ->
  splice index 1 (zip l k) = zip (splice index 1 l) (splice index 1 k).
Proof.
  intros Hlen. unfold splice.
  rewrite length_zip_with_l_eq by exact Hlen. rewrite <- Hlen.
  rewrite zip_with_take, zip_with_drop.
  symmetry. apply zip_with_app.
  rewrite !length_take, Hlen. reflexivity.
Qed.

(** Adding a sample and removing the last one again gives the store
    back, whatever the store and the id are. *)
Theorem addSample_removeLast_roundtrip pid image descriptor prev :
  removeSampleFromProfile pid (-1)
    (addSampleToProfile pid image descriptor prev) = prev.
Proof.
  unfold removeSampleFromProfile, addSampleToProfile.
  rewrite <- list_fmap_compose.
  rewrite <- (list_fmap_id prev) at 2.
  apply list_fmap_ext. intros _ p _. simpl.
  destruct (String.eqb (id p) pid) eqn:Hid; simpl; rewrite Hid; [|done].
  unfold removeSample. simpl. rewrite !splice_last. by destruct p.
Qed.

(** A store in which images and descriptors pair up stays so under
    every mutation of the hook, except a registration without a
    descriptor. *)
Theorem store_alignment_preserved prev :
  Forall aligned prev ->
  (forall uuid now name image d,
      Forall aligned (addProfile uuid now name image (Some d) prev))
  /\ (forall uuid now name image,
        ~ Forall aligned (addProfile uuid now name image None prev))
  /\ (forall pid, Forall aligned (deleteProfile pid prev))
  /\ (forall pid image d,
        Forall aligned (addSampleToProfile pid image d prev))
  /\ (forall pid index,
        Forall aligned (removeSampleFromProfile pid index prev)).
Proof.
  intros Hprev. repeat split.
  - intros uuid now name image d. unfold addProfile.
    apply Forall_app. split; [exact Hprev|]. by repeat constructor.
  - intros uuid now name image Hall. unfold addProfile in Hall.
    apply Forall_app in Hall as [_ Hnew].
    inversion Hnew as [|q l Hq _]. unfold aligned in Hq. discriminate.
  - intros pid. unfold deleteProfile.
    rewrite !Forall_forall in *.
    intros p [_ Hp]%list_elem_of_filter. by apply Hprev.
  - intros pid image d. unfold addSampleToProfile.
    apply Forall_fmap. eapply Forall_impl; [exact Hprev|].
    intros p Hp. simpl. destruct (String.eqb (id p) pid); [|exact Hp].
    unfold aligned in *. simpl. rewrite !length_app, Hp. reflexivity.
  - intros pid index. unfold removeSampleFromProfile.
    apply Forall_fmap. eapply Forall_impl; [exact Hprev|].
    intros p Hp. simpl. destruct (String.eqb (id p) pid); [|exact Hp].
    unfold aligned, removeSample. simpl. by apply splice_length_same.
Qed.

Lemma store_alignment_preserved_witness :
  Forall aligned
    (removeSampleFromProfile "p1" 0
       [mkProfile "p1" "Ann" ["a0"; "a1"] 0 [[1%Q]; [2%Q]]]).
Proof.
  apply (store_alignment_preserved
           [mkProfile "p1" "Ann" ["a0"; "a1"] 0 [[1%Q]; [2%Q]]]).
  repeat constructor.
Defined.

(** On a profile whose images and descriptors pair up, a removal takes
    out an image together with its own descriptor: the samples left are
    the old samples spliced at the same index. *)
Theorem removeSample_keeps_pairs index p :
  aligned p ->
  samples (removeSample index p) = splice index 1 (samples p).
Proof.
  intros Hp. unfold samples, removeSample. simpl.
  symmetry. by apply splice_zip.
Qed.

Lemma removeSample_keeps_pairs_witness :
  samples (removeSample 0
             (mkProfile "p1" "Ann" ["a0"; "a1"] 0 [[1%Q]; [2%Q]]))
  = [("a1", [2%Q])].
Proof.
  rewrite removeSample_keeps_pairs by reflexivity. reflexivity.
Defined.

End StoreMutations.

(** ** What the matcher cache holds *)

Section CacheContents.

Import FaceSystem FaceApi VisionService.
Implicit Types (profiles prev : list PersonProfile) (st : State)
               (threshold : Q).

Lemma filter_all {A} (P : A -> Prop) `{forall x, Decision (P x)}
    (l : list A) :
  (forall x, x ∈ l -> P x) -> filter P l = l.
Proof.
  induction l as [|a l IH]; intros Hall; [done|].
  rewrite filter_cons_True by (apply Hall; left).
  f_equal. apply IH. intros x Hx. apply Hall. by right.
Qed.

(** Registering a profile under a new id and deleting that id again
    gives the store back. *)
Theorem addProfile_deleteProfile_roundtrip
    uuid now name image descriptor prev :
  (forall p, p ∈ prev -> id p <> uuid) ->
  deleteProfile uuid (addProfile uuid now name image descriptor prev) = prev.
Proof.
  intros Hfresh. unfold deleteProfile, addProfile.
  rewrite filter_app, filter_all by exact Hfresh.
  rewrite filter_cons_False by (simpl; tauto).
  apply app_nil_r.
Qed.

Lemma addProfile_deleteProfile_roundtrip_witness :
  let prev := [mkProfile "p1" "Ann" ["a0"] 0 [[1%Q]]] in
  deleteProfile "p2" (addProfile "p2" 5 "Bob" "b0" None prev) = prev.
Proof.
  intros prev. apply addProfile_deleteProfile_roundtrip.
  intros p Hp. apply list_elem_of_singleton in Hp as ->. discriminate.
Defined.







End CacheContents.

(** ** Classifier: matches, confidence, boxes and demographics *)

Section ClassifierMore.

Import FaceApi VisionService.

Variable euclideanDistance : Descriptor -> Descriptor -> Q.

Local Abbreviation dist := euclideanDistance.
Local Abbreviation findBestMatch := (findBestMatch euclideanDistance).
Local Abbreviation describe := (describe euclideanDistance).

Lemma describe_accepted st video threshold d m :
  faceMatcher st = Some m ->
  (distance (findBestMatch m (descriptor d)) < threshold)%Q ->
  let best := findBestMatch m (descriptor d) in
  let r := describe st video threshold d in
  identified r = true
  /\ det_name r = match_label best
  /\ det_confidence r
     = Qfloor (Number.mul
                 (Qmax 0 (Number.sub 1 (Number.div (distance best) threshold)))
                 100).
Proof.
  intros Hm Hlt best r.
  pose proof (describe_classify dist st video threshold d) as Hr.
  fold r in Hr. rewrite Hm in Hr. unfold VisionService.classify in Hr.
  fold best in Hr. apply Qltb_lt in Hlt. fold best in Hlt.
  rewrite Hlt in Hr. by injection Hr as -> -> ->.
Qed.

Lemma describe_rejected st video threshold d m :
  faceMatcher st = Some m ->
  (threshold <= distance (findBestMatch m (descriptor d)))%Q ->
  let best := findBestMatch m (descriptor d) in
  let r := describe st video threshold d in
  identified r = false
  /\ det_name r = "Unknown"
  /\ det_confidence r
     = Qfloor (Number.mul (Number.sub 1 (Qmin 1 (distance best))) 100).
Proof.
  intros Hm Hge best r.
  pose proof (describe_classify dist st video threshold d) as Hr.
  fold r in Hr. rewrite Hm in Hr. unfold VisionService.classify in Hr.
  fold best in Hr. apply Qltb_ge in Hge. fold best in Hge.
  rewrite Hge in Hr. by injection Hr as -> -> ->.
Qed.

(** A probe at distance 0 from a stored vector is identified with
    confidence 100, for every positive threshold, under the name of a
    profile that holds a vector at distance 0. *)
Theorem exact_match_full_confidence st video threshold d m l v :
  (forall a b, (0 <= dist a b)%Q) ->
  faceMatcher st = Some m ->
  (l, v) ∈ flatten m ->
  (dist (descriptor d) v == 0)%Q ->
  (0 < threshold)%Q ->
  let r := describe st video threshold d in
  identified r = true
  /\ det_confidence r = 100
  /\ exists v', (det_name r, v') ∈ flatten m
                /\ (dist (descriptor d) v' == 0)%Q.
Proof.
  intros Hnonneg Hm Hin Hzero Hthr r.
  assert (Hne : flatten m <> []).
  { intros Hnil. rewrite Hnil in Hin. by apply elem_of_nil in Hin. }
  destruct (findBestMatch_nearest dist m (descriptor d) Hne)
    as (i & [l' v'] & Hi & Hbest & Hmin & _).
  apply list_elem_of_lookup in Hin as [j Hj].
  specialize (Hmin j (l, v) Hj). simpl in Hmin.
  assert (Hd : (distance (findBestMatch m (descriptor d)) == 0)%Q).
  { apply Qle_antisym; [by rewrite <- Hzero|].
    rewrite Hbest. apply Hnonneg. }
  destruct (describe_accepted st video threshold d m Hm)
    as (Hid & Hname & Hconf); [by rewrite Hd|].
  fold r in Hid, Hname, Hconf.
  split; [exact Hid|]. split.
  - rewrite Hconf. apply (Qfloor_comp _ 100).
    set (dmin := distance (findBestMatch m (descriptor d))) in *.
    assert (Hdiv : (Number.div dmin threshold == 0)%Q).
    { transitivity (Number.toDouble 0); [|apply toDouble_0].
      apply toDouble_proper. rewrite Hd. unfold Qdiv. apply Qmult_0_l. }
    assert (Hsub : (Number.sub 1 (Number.div dmin threshold) == 1)%Q).
    { transitivity (Number.toDouble 1); [|apply toDouble_1].
      apply toDouble_proper. rewrite Hdiv. reflexivity. }
    assert (Hmax : (Qmax 0 (Number.sub 1 (Number.div dmin threshold)) == 1)%Q).
    { rewrite Q.max_r; [exact Hsub | rewrite Hsub; discriminate]. }
    transitivity (Number.toDouble 100); [|apply toDouble_100].
    apply toDouble_proper. rewrite Hmax. reflexivity.
  - exists v'. rewrite Hname, Hbest. simpl. split.
    + apply list_elem_of_lookup. by exists i.
    + rewrite Hbest in Hd. exact Hd.
Qed.

(** A face is identified exactly when some stored vector lies within
    the threshold; an identified face carries a name of the handle, and
    any other face is "Unknown". *)
Theorem identified_iff_within_threshold st video threshold d m :
  faceMatcher st = Some m ->
  flatten m <> [] ->
  let r := describe st video threshold d in
  (identified r = true <->
   exists lv, lv ∈ flatten m /\ (dist (descriptor d) (snd lv) < threshold)%Q)
  /\ (identified r = true -> exists v, (det_name r, v) ∈ flatten m)
  /\ (identified r = false -> det_name r = "Unknown").
Proof.
  intros Hm Hne r.
  destruct (findBestMatch_nearest dist m (descriptor d) Hne)
    as (i & [l v] & Hi & Hbest & Hmin & _).
  assert (Hin : (l, v) ∈ flatten m)
    by (apply list_elem_of_lookup; by exists i).
  destruct (Qlt_le_dec (distance (findBestMatch m (descriptor d))) threshold)
    as [Hlt|Hge].
  - destruct (describe_accepted st video threshold d m Hm Hlt)
      as (Hid & Hname & _).
    fold r in Hid, Hname. rewrite Hid, Hname, Hbest. simpl.
    split; [|split; [by exists v | discriminate]].
    split; [|done]. intros _. exists (l, v).
    split; [exact Hin|]. by rewrite Hbest in Hlt.
  - destruct (describe_rejected st video threshold d m Hm Hge)
      as (Hid & Hname & _).
    fold r in Hid, Hname. rewrite Hid, Hname.
    split; [|split; [discriminate | done]].
    split; [discriminate|]. intros (lv & Hlv & Hlt).
    apply list_elem_of_lookup in Hlv as [j Hj].
    specialize (Hmin j lv Hj). lra.
Qed.

(** Among accepted matches a nearer probe never gets a lower
    confidence, and the same holds among rejected ones. *)
Theorem confidence_monotone st video threshold d1 d2 m :
  faceMatcher st = Some m ->
  (0 < threshold)%Q ->
  let n1 := distance (findBestMatch m (descriptor d1)) in
  let n2 := distance (findBestMatch m (descriptor d2)) in
  (n1 <= n2)%Q ->
  ((n2 < threshold)%Q \/ (threshold <= n1)%Q) ->
  det_confidence (describe st video threshold d2)
  <= det_confidence (describe st video threshold d1).
Proof.
  intros Hm Hthr n1 n2 Hle [Hacc|Hrej].
  - destruct (describe_accepted st video threshold d1 m Hm) as (_ & _ & ->);
      [fold n1; lra|].
    destruct (describe_accepted st video threshold d2 m Hm Hacc)
      as (_ & _ & ->).
    fold n1 n2. apply Qfloor_resp_le.
    apply mul_monotone; [discriminate|].
    apply Q.max_le_compat_l, sub_antitone, div_monotone;
      [exact Hthr | exact Hle].
  - destruct (describe_rejected st video threshold d1 m Hm Hrej)
      as (_ & _ & ->).
    destruct (describe_rejected st video threshold d2 m Hm) as (_ & _ & ->);
      [fold n2; lra|].
    fold n1 n2. apply Qfloor_resp_le.
    apply mul_monotone; [discriminate|].
    by apply sub_antitone, Q.min_le_compat_l.
Qed.

Lemma orElse_positive (v fallback : Q) :
  (0 < v)%Q -> orElse v fallback = v.
Proof.
  intros Hv. unfold orElse.
  destruct (Qeq_bool v 0) eqn:Heq; [|reflexivity].
  apply Qeq_bool_eq in Heq. lra.
Qed.

Lemma toDouble_full_scale :
  (Number.toDouble (1000 * (1 + Number.pow2 (-53)))
   == 1000 + Number.pow2 (-43))%Q.
Proof. vm_compute. reflexivity. Qed.

Lemma scaled_within (a w size : Q) :
  Number.isDouble a -> Number.isDouble size ->
  (0 < size)%Q -> (size <= 4294967295)%Q ->
  (0 <= a)%Q -> (0 <= w)%Q -> (a + w <= size)%Q ->
  let scale := Number.div 1000 size in
  (0 <= Number.mul a scale
   /\ Number.mul a scale <= Number.mul (Number.add a w) scale
   /\ Number.mul (Number.add a w) scale <= 1000 + Number.pow2 (-43))%Q.
Proof.
  intros Ha Hsize Hpos Hmax Hlo Hw Hfit scale.
  unfold Number.isDouble in Ha, Hsize.
  assert (Hexact : (0 <= 1000 / size)%Q).
  { apply Qle_shift_div_l; [exact Hpos | lra]. }
  assert (Hscale : (0 <= scale)%Q) by (by apply toDouble_nonneg).
  assert (Hgrow : (a <= Number.add a w)%Q).
  { assert (H : (a <= a + w)%Q) by lra.
    apply toDouble_monotone in H. unfold Number.add. lra. }
  assert (Hedge : (Number.add a w <= size)%Q).
  { apply toDouble_monotone in Hfit. unfold Number.add. lra. }
  split; [apply toDouble_nonneg; by apply Qmult_le_0_compat|].
  split; [by apply mul_monotone|].
  apply Qle_trans with (Number.mul size scale);
    [by apply mul_monotone|].
  rewrite <- toDouble_full_scale. apply toDouble_monotone.
  assert (Hnormal : (Number.pow2 (-1022) <= 1000 / size)%Q).
  { apply Qle_shift_div_l; [exact Hpos|].
    assert (Hsmall : (Number.pow2 (-1022) <= Number.pow2 (-23))%Q)
      by (by apply pow2_le).
    assert (H23 : (Number.pow2 (-23) == 1 # 8388608)%Q) by reflexivity.
    assert ((Number.pow2 (-1022) * size <= (1 # 8388608) * size)%Q).
    { apply Qmult_le_compat_r; lra. }
    lra. }
  apply toDouble_upper in Hnormal. fold (Number.div 1000 size) in Hnormal.
  fold scale in Hnormal.
  assert (Hfull : (size * (1000 / size * (1 + Number.pow2 (-53)))
                   == 1000 * (1 + Number.pow2 (-53)))%Q) by (field; lra).
  rewrite <- Hfull. apply Qmult_le_l; [exact Hpos | exact Hnormal].
Qed.

(** A box that lies inside the frame comes back as ymin, xmin, ymax,
    xmax with ymin <= ymax and xmin <= xmax, between 0 and 1000 plus one
    unit in the last place: the rounded scale factor can carry the far
    edge of the frame just past 1000. *)
Theorem box_2d_normalised st video threshold d :
  Number.isDouble (videoWidth video) ->
  Number.isDouble (videoHeight video) ->
  Number.isDouble (x (box d)) ->
  Number.isDouble (y (box d)) ->
  (0 < videoWidth video)%Q -> (videoWidth video <= 4294967295)%Q ->
  (0 < videoHeight video)%Q -> (videoHeight video <= 4294967295)%Q ->
  (0 <= x (box d))%Q -> (0 <= width (box d))%Q ->
  (x (box d) + width (box d) <= videoWidth video)%Q ->
  (0 <= y (box d))%Q -> (0 <= height (box d))%Q ->
  (y (box d) + height (box d) <= videoHeight video)%Q ->
  exists ymin xmin ymax xmax,
    box_2d (describe st video threshold d) = [ymin; xmin; ymax; xmax]
    /\ (0 <= ymin /\ ymin <= ymax /\ ymax <= 1000 + Number.pow2 (-43))%Q
    /\ (0 <= xmin /\ xmin <= xmax /\ xmax <= 1000 + Number.pow2 (-43))%Q.
Proof.
  intros HdW HdH Hdx Hdy HvW HmW HvH HmH Hx Hw Hxw Hy Hh Hyh.
  unfold VisionService.describe.
  destruct (VisionService.classify dist (faceMatcher st) threshold
              (descriptor d)) as [[i n] c].
  rewrite !orElse_positive by assumption.
  rewrite (proj2 (Qltb_lt 0 (videoWidth video)) HvW).
  rewrite (proj2 (Qltb_lt 0 (videoHeight video)) HvH).
  cbn [box_2d]. do 4 eexists. split; [reflexivity|].
  split; by apply scaled_within.
Qed.

(** The bound is reached: a box down to the bottom edge of a 640 x 480
    frame gets ymax = 1000.0000000000001. *)
Lemma box_2d_bottom_edge st threshold :
  Forall2 Qeq
    (box_2d (describe st (mkVideo false false 640 480) threshold
               (mkDetection [] (mkBox 0 0 640 480) None "" [])))
    [0; 0; 1000 + Number.pow2 (-43); 1000]%Q.
Proof.
  unfold VisionService.describe.
  destruct (VisionService.classify dist (faceMatcher st) threshold _)
    as [[i n] c].
  cbn [box_2d]. repeat constructor; vm_compute; reflexivity.
Qed.

(** Age, gender and expressions come together or not at all, and only
    when the demographic nets are loaded and the detection carries a
    non-zero age; the age returned is the detected one rounded to the
    nearest integer. *)
Theorem demographics_all_or_nothing st video threshold d :
  let r := describe st video threshold d in
  (isDemographicsLoaded st = false ->
     age r = None /\ gender r = None /\ expressions r = None)
  /\ (age r = None -> gender r = None /\ expressions r = None)
  /\ (forall n, age r = Some n ->
        isDemographicsLoaded st = true
        /\ gender r = Some (d_gender d)
        /\ expressions r = Some (d_expressions d)
        /\ exists a, d_age d = Some a /\ ~ (a == 0)%Q
                     /\ (inject_Z n <= a + (1 # 2))%Q
                     /\ (a + (1 # 2) < inject_Z n + 1)%Q).
Proof.
  intros r. subst r. unfold VisionService.describe.
  destruct (VisionService.classify dist (faceMatcher st) threshold
              (descriptor d)) as [[i nm] c].
  cbn [age gender expressions].
  destruct (isDemographicsLoaded st); simpl;
    [|repeat split; try done; discriminate].
  destruct (d_age d) as [a|]; simpl;
    [|repeat split; try done; discriminate].
  destruct (Qeq_bool a 0) eqn:Hzero; simpl;
    [repeat split; try done; discriminate|].
  split; [discriminate|]. split; [discriminate|].
  intros n [= <-]. repeat split.
  exists a. split; [reflexivity|].
  split; [by apply Qeq_bool_neq|].
  unfold round. split; [apply Qfloor_le|].
  pose proof (Qlt_floor (a + (1 # 2))) as Hlt.
  rewrite inject_Z_plus in Hlt. exact Hlt.
Qed.

End ClassifierMore.

Lemma exact_match_full_confidence_witness :
  let m := FaceApi.mkMatcher [FaceApi.mkLabeled "Ann" [[1 # 2; 0]%Q]]
             (5 # 8) in
  let st := VisionService.mkState true false (Some m) 1 None in
  let video := VisionService.mkVideo false false 640 480 in
  let d := VisionService.mkDetection [1 # 2; 0]%Q
             (VisionService.mkBox 0 0 64 48) None "" [] in
  VisionService.det_confidence
    (VisionService.describe FaceApi.rationalDistance st video (1 # 8) d)
  = 100.
Proof.
  intros m st video d.
  destruct (exact_match_full_confidence FaceApi.rationalDistance st video
              (1 # 8) d m "Ann" [1 # 2; 0]%Q)
    as (_ & Hconf & _);
    [apply rationalDistance_nonneg | reflexivity | by left
    | reflexivity | reflexivity |].
  exact Hconf.
Defined.

Lemma identified_iff_within_threshold_witness :
  let m := FaceApi.mkMatcher [FaceApi.mkLabeled "Ann" [[0; 0]%Q]]
             (5 # 8) in
  let st := VisionService.mkState true false (Some m) 1 None in
  let video := VisionService.mkVideo false false 640 480 in
  let d := VisionService.mkDetection [1 # 2; 0]%Q
             (VisionService.mkBox 0 0 64 48) None "" [] in
  VisionService.identified
    (VisionService.describe FaceApi.rationalDistance st video (5 # 8) d)
  = true.
Proof.
  intros m st video d.
  destruct (identified_iff_within_threshold FaceApi.rationalDistance st
              video (5 # 8) d m eq_refl) as [[_ Hid] _];
    [discriminate|].
  apply Hid. exists ("Ann", [0; 0]%Q). split; [by left | reflexivity].
Defined.

Lemma confidence_monotone_witness :
  let m := FaceApi.mkMatcher [FaceApi.mkLabeled "Ann" [[0; 0]%Q]]
             (5 # 8) in
  let st := VisionService.mkState true false (Some m) 1 None in
  let video := VisionService.mkVideo false false 640 480 in
  let near := VisionService.mkDetection [0; 1 # 4]%Q
                (VisionService.mkBox 0 0 64 48) None "" [] in
  let far := VisionService.mkDetection [1 # 2; 0]%Q
               (VisionService.mkBox 0 0 64 48) None "" [] in
  VisionService.det_confidence
    (VisionService.describe FaceApi.rationalDistance st video (5 # 8) far)
  <= VisionService.det_confidence
       (VisionService.describe FaceApi.rationalDistance st video
          (5 # 8) near).
Proof.
  intros m st video near far.
  apply (confidence_monotone FaceApi.rationalDistance st video (5 # 8)
           near far m eq_refl);
    [reflexivity | discriminate | left; reflexivity].
Defined.

Lemma box_2d_normalised_witness :
  let st := VisionService.mkState true false None 0 None in
  let video := VisionService.mkVideo false false 640 480 in
  let d := VisionService.mkDetection [0; 0]%Q
             (VisionService.mkBox 320 120 64 48) None "" [] in
  exists ymin xmin ymax xmax,
    VisionService.box_2d
      (VisionService.describe FaceApi.rationalDistance st video
         (5 # 8) d)
    = [ymin; xmin; ymax; xmax]
    /\ (0 <= ymin /\ ymin <= ymax /\ ymax <= 1000 + Number.pow2 (-43))%Q
    /\ (0 <= xmin /\ xmin <= xmax /\ xmax <= 1000 + Number.pow2 (-43))%Q.
Proof.
  intros st video d.
  apply box_2d_normalised;
    try (vm_compute; reflexivity); vm_compute; discriminate.
Defined.

(** ** What reaches the log *)

Section LoggingFacts.

Import JsArray FaceSystem FaceApi VisionService LiveMonitor.

Variable euclideanDistance : Descriptor -> Descriptor -> Q.

Local Abbreviation describe := (describe euclideanDistance).

Lemma rejected_confidence_low (threshold dmin : Q) :
  (1 # 2 <= threshold)%Q -> (threshold <= dmin)%Q ->
  Qfloor (Number.mul (Number.sub 1 (Qmin 1 dmin)) 100) <= 50.
Proof.
  intros Hthr Hge. apply (Qfloor_resp_le _ 50).
  assert (Hmin : (1 # 2 <= Qmin 1 dmin)%Q) by (apply Q.min_glb; lra).
  assert (Hsub : (Number.sub 1 (Qmin 1 dmin) <= 1 # 2)%Q).
  { apply (sub_antitone 1) in Hmin.
    assert (H : (Number.sub 1 (1 # 2) == 1 # 2)%Q)
      by (vm_compute; reflexivity).
    lra. }
  apply (mul_monotone 100) in Hsub; [|discriminate].
  assert (H : (Number.mul (1 # 2) 100 == 50)%Q) by (vm_compute; reflexivity).
  lra.
Qed.

(** With a threshold of one half or more, as with the default 0.55, the
    monitor logs a face exactly when it is identified: an unknown face
    never has a confidence above 50, so no entry of a frame is marked
    unknown. *)
Theorem unknown_faces_not_logged st video threshold
    (stamped : list (string * Z * Detection)) :
  (1 # 2 <= threshold)%Q ->
  (forall d, worthLogging (describe st video threshold d)
             = identified (describe st video threshold d))
  /\ (forall log,
        log ∈ frameLogs
                ((fun s => (fst s, describe st video threshold (snd s)))
                 <$> stamped) ->
        isUnknown log = false).
Proof.
  intros Hthr.
  assert (Hlogged : forall d,
            worthLogging (describe st video threshold d)
            = identified (describe st video threshold d)).
  { intros d. unfold worthLogging.
    destruct (identified (describe st video threshold d)) eqn:Hid;
      [reflexivity|].
    simpl. apply Z.ltb_ge.
    pose proof (describe_classify euclideanDistance st video threshold d)
      as Hr.
    unfold VisionService.classify in Hr.
    destruct (faceMatcher st) as [m|].
    - destruct (Qltb _ threshold) eqn:Hlt.
      + apply (f_equal (fun t => fst (fst t))) in Hr. simpl in Hr. congruence.
      + apply (f_equal snd) in Hr. cbn [snd] in Hr. rewrite Hr.
        apply Qltb_ge in Hlt. by eapply rejected_confidence_low.
    - apply (f_equal snd) in Hr. cbn [snd] in Hr. rewrite Hr. lia. }
  split; [exact Hlogged|].
  intros log Hlog. unfold frameLogs in Hlog.
  apply list_elem_of_fmap in Hlog as ([[uuid now] det] & -> & Hin).
  apply list_elem_of_filter in Hin as [Hworth Hin]. simpl in Hworth.
  apply list_elem_of_fmap in Hin as ([[uuid' now'] d] & [= -> -> ->] & _).
  simpl. rewrite Hlogged in Hworth. by rewrite Hworth.
Qed.

(** Whatever events arrive, in whatever order of time, the log never
    holds two neighbours with the same name less than a window apart. *)
Theorem logAfter_spaced window events : spaced window (logAfter window events).
Proof.
  induction events as [|log events IH] using rev_ind.
  - intros i newer older Hi. by destruct i.
  - rewrite logAfter_snoc. set (prev := logAfter window events) in *.
    unfold addLogWithin, slice0.
    destruct (debounced window log prev) eqn:Hdeb; [exact IH|].
    intros [|i] newer older Hnewer Holder Hname.
    + simpl in Hnewer, Holder. injection Hnewer as <-.
      destruct prev as [|last prev']; [done|].
      simpl in Holder. injection Holder as <-.
      apply not_true_iff_false in Hdeb. rewrite debounced_head in Hdeb.
      apply Z.le_ngt. intros Hlt. apply Hdeb. by split.
    + simpl in Hnewer, Holder.
      apply lookup_take_Some in Hnewer as [Hnewer _].
      apply lookup_take_Some in Holder as [Holder _].
      by apply (IH i).
Qed.

(** Handing the same event to [addLog] twice is the same as handing it
    once, for every positive window. *)
Theorem addLog_idempotent window log prev :
  0 < window ->
  addLogWithin window log (addLogWithin window log prev)
  = addLogWithin window log prev.
Proof.
  intros Hw.
  destruct (debounced window log prev) eqn:Hdeb.
  - assert (Hsame : addLogWithin window log prev = prev)
      by (unfold addLogWithin; by rewrite Hdeb).
    by rewrite !Hsame.
  - assert (Hfront : addLogWithin window log prev = log :: take 199 prev)
      by (unfold addLogWithin, slice0; by rewrite Hdeb).
    rewrite Hfront. unfold addLogWithin.
    assert (Hagain : debounced window log (log :: take 199 prev) = true).
    { apply debounced_head. split; [reflexivity | lia]. }
    by rewrite Hagain.
Qed.

Lemma addLog_idempotent_witness :
  let log := mkLog "e1" 1000 "Ann" 90 false in
  addLog log (addLog log []) = [log].
Proof.
  intros log. unfold addLog.
  rewrite addLog_idempotent by lia. reflexivity.
Defined.

End LoggingFacts.

Lemma unknown_faces_not_logged_witness :
  let m := FaceApi.mkMatcher [FaceApi.mkLabeled "Ann" [[0; 0]%Q]]
             (5 # 8) in
  let st := VisionService.mkState true false (Some m) 1 None in
  let video := VisionService.mkVideo false false 640 480 in
  let near := VisionService.mkDetection [3 # 4; 0]%Q
                (VisionService.mkBox 0 0 64 48) None "" [] in
  LiveMonitor.worthLogging
    (VisionService.describe FaceApi.rationalDistance st video
       (5 # 8) near)
  = false.
Proof.
  intros m st video near.
  destruct (unknown_faces_not_logged FaceApi.rationalDistance st video
              (5 # 8) []) as [Hlogged _]; [discriminate|].
  rewrite Hlogged. reflexivity.
Defined.

(** ** Model loader: fallback, optional tier, missing library *)

Section LoaderMore.

Import FaceApi VisionService.

Variable euclideanDistance : Descriptor -> Descriptor -> Q.
Variable urls : list string.

Local Abbreviation step := (step euclideanDistance urls).
Local Abbreviation run := (run euclideanDistance urls).
Local Abbreviation reachable := (reachable euclideanDistance urls).

(** Failures move the body of [p] along the list without touching
    anything but the task and the sources asked. *)
Lemma settle_some_failures (failures : list Outcome) :
  forall rt (p : PromiseRef) url rest,
    tasks rt !! p = Some (mkTask url rest) ->
    Forall (fun o => o <> Loaded) failures ->
    (length failures <= length rest)%nat ->
    let rt' := fold_left (fun rt o => settle p o rt) failures rt in
    exists url',
      (url :: rest) !! length failures = Some url'
      /\ tasks rt' !! p = Some (mkTask url' (drop (length failures) rest))
      /\ attempts rt' = attempts rt ++ take (length failures) rest
      /\ vars rt' = vars rt
      /\ promises rt' = promises rt
      /\ background rt' = background rt.
Proof.
  induction failures as [|o failures IH];
    intros rt p url rest Htask Hfail Hlen.
  - exists url. simpl. by rewrite app_nil_r.
  - apply Forall_cons in Hfail as [Ho Hfail].
    destruct rest as [|next rest]; [simpl in Hlen; lia|].
    cbn [fold_left]. rewrite (settle_failure p o rt _ Htask Ho).
    cbn [remaining].
    destruct (IH (attempt p (next :: rest) rt) p next rest)
      as (url' & Hurl' & Htask' & Hat & Hvars & Hps & Hbg);
      [apply lookup_insert_eq | exact Hfail | simpl in Hlen; lia |].
    exists url'. split; [exact Hurl'|]. split; [exact Htask'|].
    split; [rewrite Hat; simpl; by rewrite <- app_assoc|].
    by repeat split.
Qed.

Lemma loadModelsFrom_background rt :
  background (fst (loadModelsFrom urls rt)) = background rt.
Proof.
  unfold loadModelsFrom.
  destruct (faceapiDefined rt); [|reflexivity]. simpl.
  destruct (isCriticalModelsLoaded (vars rt)); [reflexivity|].
  destruct (loadingPromise (vars rt)); [reflexivity|].
  by destruct urls.
Qed.

(** The loader falls back along the list: when the sources before one
    fail or time out and that one loads, the promise of the call is
    fulfilled with true, the critical flag is set, exactly the sources
    up to that one were asked, in order, and the optional models are
    fetched from that same source. *)
Theorem loadModels_falls_back rt (failures : list Outcome) url :
  faceapiDefined rt = true ->
  isCriticalModelsLoaded (vars rt) = false ->
  loadingPromise (vars rt) = None ->
  Forall (fun o => o <> Loaded) failures ->
  urls !! length failures = Some url ->
  let (rt1, p) := loadModelsFrom urls rt in
  let rt2 :=
    fold_left (fun rt o => settle p o rt) (failures ++ [Loaded]) rt1 in
  promises rt2 !! p = Some (Fulfilled true)
  /\ isCriticalModelsLoaded (vars rt2) = true
  /\ attempts rt2 = attempts rt ++ take (S (length failures)) urls
  /\ background rt2 = background rt ++ [url]
  /\ tasks rt2 !! p = None.
Proof.
  intros Hfa Hloaded Hcached Hfail Hurl.
  destruct urls as [|first rest] eqn:Hurls; [done|]. rewrite <- Hurls.
  pose proof (loadModelsFrom_start urls rt first rest Hurls Hfa Hloaded
                Hcached) as Hstart.
  pose proof (loadModelsFrom_background rt) as Hbg1.
  destruct (loadModelsFrom urls rt) as [rt1 p]. simpl in Hbg1.
  destruct Hstart as (-> & Hps1 & Hts1 & Hat1 & Hc1 & Hl1 & Hfa1).
  intros rt2. subst rt2. rewrite fold_left_app.
  apply lookup_lt_Some in Hurl as Hlen. simpl in Hlen.
  destruct (settle_some_failures failures rt1 (length (promises rt)) first
              rest) as (url' & Hurl' & Htask & Hat & Hvars & Hps & Hbg);
    [rewrite Hts1; apply lookup_insert_eq | exact Hfail | lia |].
  assert (url' = url) as -> by congruence.
  set (rt' := fold_left _ failures rt1) in *.
  cbn [fold_left]. unfold settle. rewrite Htask. simpl.
  split; [apply list_lookup_insert_eq; rewrite Hps, Hps1, length_app;
          simpl; lia|].
  split; [reflexivity|].
  split; [rewrite Hat, Hat1, Hurls; simpl; by rewrite <- app_assoc|].
  split; [by rewrite Hbg, Hbg1 | apply lookup_delete_eq].
Qed.

Lemma step_stays_loaded rt e :
  consistent rt ->
  isCriticalModelsLoaded (vars rt) = true ->
  isCriticalModelsLoaded (vars (step rt e)) = true
  /\ attempts (step rt e) = attempts rt
  /\ tasks (step rt e) = tasks rt.
Proof.
  intros [[Hflag Htasks] _] Hloaded. destruct e; simpl step.
  - unfold loadModelsFrom. by rewrite (Hflag Hloaded), Hloaded.
  - unfold settle. destruct (tasks rt !! p) as [t|] eqn:Htask; [|done].
    destruct (Htasks p t Htask) as (_ & Hnot & _). congruence.
  - unfold settleDemographics. by destruct (background rt).
  - simpl.
    destruct (detectFacesReal_state euclideanDistance (faceapiDefined rt)
                (vars rt) video detections profiles threshold) as [->| ->];
      [done|].
    destruct (updateFaceMatcher_flags (faceapiDefined rt) (vars rt) profiles
                (default DEFAULT_THRESHOLD threshold)) as (-> & _).
    done.
Qed.

(** Once the critical models are loaded they stay loaded and no source
    is asked again, whatever happens next: further calls, late
    settlements, a failure of the optional models, frames. *)
Theorem loaded_is_final rt events :
  reachable rt ->
  isCriticalModelsLoaded (vars rt) = true ->
  isCriticalModelsLoaded (vars (run rt events)) = true
  /\ attempts (run rt events) = attempts rt
  /\ tasks (run rt events) = tasks rt.
Proof.
  intros Hreach. apply reachable_consistent in Hreach. revert rt Hreach.
  induction events as [|e events IH]; intros rt Hrt Hloaded; [done|].
  destruct (step_stays_loaded rt e Hrt Hloaded) as (Hl & Hat & Hts).
  simpl. rewrite <- Hat, <- Hts.
  apply IH; [by apply step_consistent | exact Hl].
Qed.

Lemma optionalAfterCritical_same rt rt' :
  isCriticalModelsLoaded (vars rt') = isCriticalModelsLoaded (vars rt) ->
  isDemographicsLoaded (vars rt') = isDemographicsLoaded (vars rt) ->
  background rt' = background rt ->
  optionalAfterCritical rt -> optionalAfterCritical rt'.
Proof. unfold optionalAfterCritical. by intros -> -> ->. Qed.

Lemma loadModelsFrom_flags rt :
  isCriticalModelsLoaded (vars (fst (loadModelsFrom urls rt)))
  = isCriticalModelsLoaded (vars rt)
  /\ isDemographicsLoaded (vars (fst (loadModelsFrom urls rt)))
     = isDemographicsLoaded (vars rt).
Proof.
  unfold loadModelsFrom.
  destruct (faceapiDefined rt); [|done]. simpl.
  destruct (isCriticalModelsLoaded (vars rt)) eqn:Hl; [done|].
  destruct (loadingPromise (vars rt)); [done|].
  by destruct urls.
Qed.

Lemma step_optionalAfterCritical rt e :
  consistent rt ->
  optionalAfterCritical rt -> optionalAfterCritical (step rt e).
Proof.
  intros [[Hflag Htasks] _] Hrt. destruct e; simpl step.
  - destruct (loadModelsFrom_flags rt) as [Hl Hd].
    eapply optionalAfterCritical_same; [exact Hl | exact Hd | | exact Hrt].
    apply loadModelsFrom_background.
  - unfold settle. destruct (tasks rt !! p) as [t|] eqn:Htask; [|exact Hrt].
    destruct (Htasks p t Htask) as (_ & Hnot & _).
    destruct Hrt as [Hopt Hone]. destruct (Hopt Hnot) as [Hbg Hdemo].
    destruct o.
    + split; [discriminate|]. simpl. rewrite Hbg. simpl. lia.
    + eapply optionalAfterCritical_same; [| | |by split];
        by destruct (remaining t).
    + eapply optionalAfterCritical_same; [| | |by split];
        by destruct (remaining t).
  - unfold settleDemographics.
    destruct (background rt) as [|url rest] eqn:Hbg; [exact Hrt|].
    destruct Hrt as [Hopt Hone]. rewrite Hbg in Hopt, Hone.
    split; simpl.
    + intros Hnot. destruct (Hopt Hnot) as [? _]. discriminate.
    + simpl in Hone. lia.
  - eapply optionalAfterCritical_same; [| | |exact Hrt]; simpl; [| |done].
    + destruct (detectFacesReal_state euclideanDistance (faceapiDefined rt)
                  (vars rt) video detections profiles threshold)
        as [->| ->]; [done|].
      by destruct (updateFaceMatcher_flags (faceapiDefined rt) (vars rt)
                     profiles (default DEFAULT_THRESHOLD threshold))
        as (-> & _).
    + destruct (detectFacesReal_state euclideanDistance (faceapiDefined rt)
                  (vars rt) video detections profiles threshold)
        as [->| ->]; [done|].
      by destruct (updateFaceMatcher_flags (faceapiDefined rt) (vars rt)
                     profiles (default DEFAULT_THRESHOLD threshold))
        as (_ & -> & _).
Qed.

(** While the page runs, the optional models are only ever fetched, and
    the demographic flag only ever set, after the critical models are
    loaded; at most one fetch of them is in flight. *)
Theorem optional_tier_after_critical rt :
  reachable rt ->
  (isDemographicsLoaded (vars rt) = true ->
   isCriticalModelsLoaded (vars rt) = true)
  /\ (background rt <> [] -> isCriticalModelsLoaded (vars rt) = true)
  /\ (length (background rt) <= 1)%nat.
Proof.
  intros (faceapi & events & ->).
  assert (Hinv : forall rt,
            consistent rt -> optionalAfterCritical rt ->
            optionalAfterCritical (run rt events)).
  { induction events as [|e events IH]; intros rt Hrt Hopt; [done|].
    simpl. apply IH; [by apply step_consistent|].
    by apply step_optionalAfterCritical. }
  destruct (Hinv (boot faceapi)) as [Hopt Hone].
  { apply boot_consistent. }
  { split; [done | simpl; lia]. }
  repeat split; [| |exact Hone].
  - intros Hdemo.
    destruct (isCriticalModelsLoaded (vars (run (boot faceapi) events)));
      [done|].
    destruct (Hopt eq_refl) as [_ Hnot]. congruence.
  - intros Hbg.
    destruct (isCriticalModelsLoaded (vars (run (boot faceapi) events)));
      [done|].
    by destruct (Hopt eq_refl) as [Hnil _].
Qed.

Lemma step_inert rt e : inert rt -> inert (step rt e).
Proof.
  intros (Hfa & Hvars & Hts & Hbg & Hat & Hps). destruct e; simpl step.
  - unfold loadModelsFrom. rewrite Hfa. simpl.
    repeat split; try done. apply Forall_app. split; [exact Hps|].
    by repeat constructor.
  - unfold settle. rewrite Hts, lookup_empty. by repeat split.
  - unfold settleDemographics. rewrite Hbg. by repeat split.
  - unfold VisionService.detectFacesReal, withVars. rewrite Hvars.
    destruct video as [v|]; simpl; by repeat split.
Qed.

(** Without the [faceapi] global nothing is ever loaded or asked for:
    whatever happens, every call of [loadModels] hands out a promise
    fulfilled with false, the flags stay unset, there is no handle, and
    every frame comes back empty. *)
Theorem faceapi_missing events :
  let rt := run (boot false) events in
  attempts rt = []
  /\ vars rt = initial
  /\ (let (rt', p) := loadModelsFrom urls rt in
      promises rt' !! p = Some (Fulfilled false) /\ attempts rt' = [])
  /\ (forall video detections profiles threshold,
        snd (detectFacesReal euclideanDistance (faceapiDefined rt) (vars rt)
               video detections profiles threshold) = []).
Proof.
  intros rt.
  assert (Hinert : inert rt).
  { subst rt.
    assert (Hinv : forall rt, inert rt -> inert (run rt events)).
    { induction events as [|e events IH]; intros rt Hrt; [done|].
      simpl. apply IH. by apply step_inert. }
    apply Hinv. by repeat split. }
  destruct Hinert as (Hfa & Hvars & Hts & Hbg & Hat & Hps).
  split; [exact Hat|]. split; [exact Hvars|]. split.
  - unfold loadModelsFrom. rewrite Hfa. simpl.
    split; [by apply list_lookup_middle | exact Hat].
  - intros video detections profiles threshold.
    unfold VisionService.detectFacesReal. rewrite Hvars.
    by destruct video.
Qed.

End LoaderMore.

Lemma loadModels_falls_back_witness :
  let rt1 := fst (VisionService.loadModels (VisionService.boot true)) in
  let rt2 :=
    fold_left (fun rt o => VisionService.settle 0%nat o rt)
      [VisionService.TimedOut; VisionService.Loaded] rt1 in
  VisionService.promises rt2 !! 0%nat = Some (VisionService.Fulfilled true)
  /\ VisionService.attempts rt2 = take 2 VisionService.MODEL_URLS
  /\ VisionService.background rt2
     = ["https://justadudewhohacks.github.io/face-api.js/models"].
Proof.
  intros rt1 rt2.
  pose proof (loadModels_falls_back VisionService.MODEL_URLS
                (VisionService.boot true) [VisionService.TimedOut]
                "https://justadudewhohacks.github.io/face-api.js/models")
    as Hfall.
  lazy zeta in Hfall.
  destruct Hfall as (Htrue & _ & Hattempts & Hbackground & _);
    [reflexivity | reflexivity | reflexivity
    | repeat constructor; discriminate | reflexivity |].
  split; [exact Htrue|]. split; [exact Hattempts | exact Hbackground].
Defined.

Lemma loaded_is_final_witness :
  let ready :=
    VisionService.run FaceApi.rationalDistance VisionService.MODEL_URLS
      (VisionService.boot true)
      [VisionService.CallLoadModels;
       VisionService.Settle 0%nat VisionService.Loaded] in
  let later :=
    VisionService.run FaceApi.rationalDistance VisionService.MODEL_URLS ready
      [VisionService.SettleDemographics false;
       VisionService.CallLoadModels;
       VisionService.Settle 0%nat VisionService.Failed] in
  VisionService.isCriticalModelsLoaded (VisionService.vars later) = true
  /\ VisionService.attempts later = take 1 VisionService.MODEL_URLS.
Proof.
  intros ready later.
  destruct (loaded_is_final FaceApi.rationalDistance
              VisionService.MODEL_URLS ready
              [VisionService.SettleDemographics false;
               VisionService.CallLoadModels;
               VisionService.Settle 0%nat VisionService.Failed])
    as (Hloaded & Hattempts & _).
  - by exists true,
         [VisionService.CallLoadModels;
          VisionService.Settle 0%nat VisionService.Loaded].
  - reflexivity.
  - split; [exact Hloaded | exact Hattempts].
Defined.

Lemma optional_tier_after_critical_witness :
  let rt :=
    VisionService.run FaceApi.rationalDistance VisionService.MODEL_URLS
      (VisionService.boot true)
      [VisionService.CallLoadModels;
       VisionService.Settle 0%nat VisionService.Loaded;
       VisionService.SettleDemographics true] in
  VisionService.isDemographicsLoaded (VisionService.vars rt) = true
  /\ VisionService.isCriticalModelsLoaded (VisionService.vars rt) = true.
Proof.
  intros rt. split; [reflexivity|].
  destruct (optional_tier_after_critical FaceApi.rationalDistance
              VisionService.MODEL_URLS rt) as (Hdemo & _).
  - by exists true,
         [VisionService.CallLoadModels;
          VisionService.Settle 0%nat VisionService.Loaded;
          VisionService.SettleDemographics true].
  - apply Hdemo. reflexivity.
Defined.

(** ** [withTimeout] *)

Section TimeoutFacts.

Import Timeout.
Context {A E : Type}.
Implicit Types (r : Race A E) (s : Signal A E) (ms : Z).

Lemma signal_after_settled ms r s first :
  settled r = Some first -> timerSet r = false ->
  settled (signal ms r s) = Some first /\ timerSet (signal ms r s) = false.
Proof.
  intros Hsettled Htimer.
  destruct s; unfold signal, settleWith; rewrite ?Htimer, ?Hsettled; done.
Qed.

Lemma signals_after_settled ms (later : list (Signal A E)) :
  forall r first,
    settled r = Some first -> timerSet r = false ->
    settled (fold_left (signal ms) later r) = Some first
    /\ timerSet (fold_left (signal ms) later r) = false.
Proof.
  induction later as [|s later IH]; intros r first Hsettled Htimer; [done|].
  destruct (signal_after_settled ms r s first Hsettled Htimer).
  simpl. by apply IH.
Qed.

(** The promise of [withTimeout] is settled by whatever comes first and
    by nothing after it: the timer rejects with the timeout, the wrapped
    promise passes on its value or its reason; a value that arrives
    after the timeout is dropped, and after the wrapped promise has
    settled the timer no longer fires. *)
Theorem withTimeout_first_signal_wins ms first (later : list (Signal A E)) :
  let r := fold_left (signal ms) (first :: later) withTimeout in
  settled r
  = Some match first with
         | TimerFires => Rejected (TimeoutAfter ms)
         | InnerFulfilled value => Resolved value
         | InnerRejected reason => Rejected (Inner reason)
         end
  /\ timerSet r = false.
Proof.
  simpl. apply signals_after_settled; by destruct first.
Qed.

End TimeoutFacts.

(** ** The first revision of the classifier *)

Section FirstRevision.

Import FaceApi.

Lemma Qfloor_negative (q : Q) : (q < 0)%Q -> Qfloor q < 0.
Proof.
  intros Hq. rewrite Zlt_Qlt.
  eapply Qle_lt_trans; [apply Qfloor_le | exact Hq].
Qed.

(** In the first revision a match is rejected by its label alone; a
    rejected face farther than 1 gets a negative confidence, while up to
    distance 1 the confidence is the one of the later revision and lies
    between 0 and 100. *)
Theorem first_revision_rejected_confidence (best : FaceMatch) :
  match_label best = "unknown" ->
  let '(identified, name, confidence) :=
    VisionServiceV1.classify (Some best) in
  identified = false /\ name = "Unknown"
  /\ (Number.isDouble (distance best) -> (1 < distance best)%Q ->
      confidence < 0)
  /\ ((0 <= distance best <= 1)%Q ->
      confidence
      = Qfloor (Number.mul (Number.sub 1 (Qmin 1 (distance best))) 100)
      /\ 0 <= confidence <= 100).
Proof.
  intros Hlabel. unfold VisionServiceV1.classify. rewrite Hlabel. simpl negb.
  cbv iota. split; [reflexivity|]. split; [reflexivity|]. split.
  - intros Hnum Hfar. apply Qfloor_negative.
    pose proof (double_above_one _ Hnum Hfar) as Hnext.
    apply (sub_antitone 1) in Hnext.
    apply (mul_monotone 100) in Hnext; [|discriminate].
    assert (Hc : (Number.mul (Number.sub 1 (1 + Number.pow2 (-52))) 100
                  < 0)%Q) by (vm_compute; reflexivity).
    lra.
  - intros [Hlo Hhi].
    assert (Hmin : (Qmin 1 (distance best) == distance best)%Q)
      by (by apply Q.min_r).
    split.
    + apply Qfloor_comp, mul_proper, sub_proper. by symmetry.
    + apply Qfloor_percent, sub_unit. by split.
Qed.

Lemma first_revision_rejected_confidence_witness :
  VisionServiceV1.classify (Some (mkMatch "unknown" (3 # 2)))
  = (false, "Unknown", -50).
Proof.
  pose proof (first_revision_rejected_confidence
                (mkMatch "unknown" (3 # 2)) eq_refl) as Hrej.
  destruct (VisionServiceV1.classify (Some (mkMatch "unknown" (3 # 2))))
    as [[i n] c] eqn:Hc.
  destruct Hrej as (-> & -> & _). f_equal.
  apply (f_equal snd) in Hc. cbn [snd] in Hc. rewrite <- Hc.
  vm_compute. reflexivity.
Defined.

End FirstRevision.

(** ** Edge cases of the store and of a frame *)

Section EdgeCases.

Import FaceSystem FaceApi VisionService.

Variable euclideanDistance : Descriptor -> Descriptor -> Q.

(** An id that no profile has is silently ignored by every mutation
    that takes an id: the store comes back unchanged. *)
Theorem unknown_id_ignored pid (prev : list PersonProfile) :
  (forall p, p ∈ prev -> id p <> pid) ->
  (forall image descriptor,
      addSampleToProfile pid image descriptor prev = prev)
  /\ (forall index, removeSampleFromProfile pid index prev = prev)
  /\ deleteProfile pid prev = prev.
Proof.
  intros Hfresh.
  assert (Hmap : forall f : PersonProfile -> PersonProfile,
            (fun p => if String.eqb (id p) pid then f p else p) <$> prev
            = prev).
  { intros f. rewrite <- (list_fmap_id prev) at 2.
    apply list_fmap_ext. intros i p Hp. simpl.
    destruct (String.eqb_spec (id p) pid) as [Heq|]; [|done].
    destruct (Hfresh p); [|exact Heq].
    apply list_elem_of_lookup. by exists i. }
  split; [|split].
  - intros image descriptor. apply Hmap.
  - intros index. apply (Hmap (removeSample index)).
  - unfold deleteProfile. by apply filter_all.
Qed.

Lemma unknown_id_ignored_witness :
  let prev := [mkProfile "p1" "Ann" ["a0"] 0 [[1%Q]]] in
  removeSampleFromProfile "p9" 0 prev = prev.
Proof.
  intros prev. apply (unknown_id_ignored "p9" prev).
  intros p Hp. apply list_elem_of_singleton in Hp as ->. discriminate.
Defined.

(** A frame gives results only when the critical models are loaded, the
    library is there and the video is playing; then there is one result
    per detected face, in order.  In every case the loader's flags and
    its cached promise are left alone. *)
Theorem detectFacesReal_guard
    faceapi st video detections profiles threshold :
  let out := detectFacesReal euclideanDistance faceapi st video detections
               profiles threshold in
  (snd out <> [] ->
     faceapi = true /\ isCriticalModelsLoaded st = true
     /\ (exists v, video = Some v /\ paused v = false /\ ended v = false)
     /\ length (snd out) = length detections)
  /\ isCriticalModelsLoaded (fst out) = isCriticalModelsLoaded st
  /\ isDemographicsLoaded (fst out) = isDemographicsLoaded st
  /\ loadingPromise (fst out) = loadingPromise st.
Proof.
  intros out. split.
  - subst out. unfold detectFacesReal.
    destruct video as [v|]; [|simpl; congruence].
    destruct (isCriticalModelsLoaded st); [|simpl; congruence].
    destruct (paused v) eqn:Hpaused; [simpl; congruence|].
    destruct (ended v) eqn:Hended; [simpl; congruence|].
    destruct faceapi; [|simpl; congruence]. simpl.
    destruct detections as [|d detections]; [simpl; congruence|].
    intros _. repeat split; [by exists v|].
    cbn [snd]. by rewrite length_fmap.
  - subst out.
    destruct (detectFacesReal_state euclideanDistance faceapi st video
                detections profiles threshold) as [->| ->]; [done|].
    apply updateFaceMatcher_flags.
Qed.

End EdgeCases.


Lemma demographics_all_or_nothing_witness :
  let st := VisionService.mkState true true None 0 None in
  let video := VisionService.mkVideo false false 640 480 in
  let d := VisionService.mkDetection [0; 0]%Q
             (VisionService.mkBox 0 0 64 48) (Some (61 # 2)) "female" [] in
  VisionService.gender
    (VisionService.describe FaceApi.rationalDistance st video (5 # 8) d)
  = Some "female".
Proof.
  intros st video d.
  destruct (demographics_all_or_nothing FaceApi.rationalDistance st video
              (5 # 8) d) as (_ & _ & Hsome).
  destruct (Hsome 31 eq_refl) as (_ & Hgender & _).
  exact Hgender.
Defined.

Lemma detectFacesReal_guard_witness :
  let st := VisionService.mkState true false None (-1) None in
  let video := VisionService.mkVideo false false 640 480 in
  let d := VisionService.mkDetection [0; 0]%Q
             (VisionService.mkBox 0 0 64 48) None "" [] in
  length
    (snd (VisionService.detectFacesReal FaceApi.rationalDistance true st
            (Some video) [d; d] [] None))
  = 2%nat.
Proof.
  intros st video d.
  destruct (detectFacesReal_guard FaceApi.rationalDistance true st
              (Some video) [d; d] [] None) as [Hresults _].
  destruct Hresults as (_ & _ & _ & Hlen); [discriminate|].
  exact Hlen.
Defined.
